(** * QodeVault: retrieval and fusion pipeline

    A shallow embedding of the parts of [src/database.py], [src/parser.py]
    and [src/ingest.py] that tokenize a query, fuse two ranked result lists,
    window a file into line chunks, derive record identifiers and build the
    records that are upserted, and of the readers of the retrieved chunks in
    [src/recommend.py] and [src/chat.py].

    Conventions of the embedding.
    - A Python [str] is the list of its Unicode code points ([list N]);
      [py "..."] turns an ASCII literal into such a list.
    - A Python [int] is a [Z].
    - A Python [float] score is an exact rational ([Q]): the fusion formula is
      stated over the rationals and binary64 rounding is outside the model.
    - A [dict] whose iteration order the code relies on is an association
      list in first-insertion order; a [dict] or [set] that is only looked up
      is a [gmap] or a [gset].
    - A call that can raise returns an [option] ([None] = the exception). *)

From Stdlib Require Import QArith Lqa.
From Stdlib Require DecimalString DecimalZ DecimalPos.
From Equations Require Import Equations.
From stdpp Require Import gmap list strings sorting.

Set Default Proof Using "Type".
Local Open Scope Z_scope.

(** ** Python built-ins used by the sources *)

Module Py.

(** A character is a code point, a string a list of code points. *)
Abbreviation char := N (only parsing).
Abbreviation str := (list N) (only parsing).

Definition py (s : string) : str :=
  List.map Ascii.N_of_ascii (String.list_ascii_of_string s).
Arguments py : simpl never.

Definition in_range (lo hi c : N) : bool := ((lo <=? c) && (c <=? hi))%N.

Definition is_upper (c : char) : bool := in_range 65 90 c.
Definition is_lower (c : char) : bool := in_range 97 122 c.
Definition is_digit (c : char) : bool := in_range 48 57 c.

(** [str.lower] on the characters the tokenizer can emit (ASCII): the 26
    upper-case letters move by 32, every other character is kept. *)
Definition lower_char (c : char) : char :=
  if is_upper c then (c + 32)%N else c.

Definition lower (s : str) : str := List.map lower_char s.

(** [str.isspace] for one character: the code points [str.strip()] and
    [str.split()] treat as white space. *)
Definition is_space (c : char) : bool :=
  in_range 9 13 c || in_range 28 32 c || (c =? 133)%N || (c =? 160)%N
  || (c =? 5760)%N || in_range 8192 8202 c || (c =? 8232)%N
  || (c =? 8233)%N || (c =? 8239)%N || (c =? 8287)%N || (c =? 12288)%N.

Fixpoint lstrip (s : str) : str :=
  match s with
  | c :: s' => if is_space c then lstrip s' else s
  | [] => []
  end.

Definition rstrip (s : str) : str := rev (lstrip (rev s)).

(** [s.strip()] *)
Definition strip (s : str) : str := rstrip (lstrip s).

(** Line boundaries of [str.splitlines()]. *)
Definition is_linebreak (c : char) : bool :=
  in_range 10 13 c || in_range 28 30 c || (c =? 133)%N
  || (c =? 8232)%N || (c =? 8233)%N.

(** Reads one line: the characters before the next line boundary, and what
    follows the boundary (["\r\n"] is one boundary). *)
Fixpoint read_line (s : str) : str * str :=
  match s with
  | [] => ([], [])
  | c :: s' =>
      if is_linebreak c then
        match s' with
        | d :: s'' =>
            if (c =? 13)%N && (d =? 10)%N then ([], s'') else ([], s')
        | [] => ([], [])
        end
      else let '(line, rest) := read_line s' in (c :: line, rest)
  end.

Lemma read_line_shorter (s : str) :
  s <> [] -> (length (read_line s).2 < length s)%nat.
Proof.
  induction s as [|c s IH]; [done|]; intros _; cbn [read_line].
  destruct (is_linebreak c).
  - destruct s as [|d s]; [cbn; lia|].
    destruct ((c =? 13)%N && (d =? 10)%N); cbn; lia.
  - destruct s as [|d s]; [cbn; lia|].
    specialize (IH ltac:(done)).
    destruct (read_line (d :: s)) as [line rest]. cbn in *. lia.
Qed.

(** [s.splitlines()] *)
Equations? splitlines (s : str) : list str by wf (length s) lt :=
  splitlines [] := [];
  splitlines (c :: s') := (read_line (c :: s')).1 :: splitlines (read_line (c :: s')).2.
Proof. by apply read_line_shorter. Qed.

(** [sep.join(parts)] *)
Fixpoint join (sep : str) (parts : list str) : str :=
  match parts with
  | [] => []
  | [p] => p
  | p :: ps => p ++ sep ++ join sep ps
  end.

(** [l[start:end]] for any two integers, negative ones counting from the
    end as Python does. *)
Definition slice_index (n i : Z) : Z :=
  if i <? 0 then Z.max 0 (n + i) else Z.min i n.

Definition slice {A} (l : list A) (start stop : Z) : list A :=
  let n := Z.of_nat (length l) in
  let a := slice_index n start in
  let b := slice_index n stop in
  take (Z.to_nat (b - a)) (drop (Z.to_nat a) l).

(** [range(start, stop, step)]; a zero step raises [ValueError]. *)
Definition range (start stop step : Z) : option (list Z) :=
  if decide (step = 0) then None
  else
    let count :=
      if decide (0 < step) then (stop - start + step - 1) `div` step
      else (start - stop - step - 1) `div` (- step) in
    Some ((λ j, start + Z.of_nat j * step) <$> seq 0 (Z.to_nat count)).

(** A [for] loop whose body can raise: the state after the last turn, or
    [None] from the first turn that raises. *)
Fixpoint for_each {A S} (body : S → A → option S) (s : S) (l : list A)
  : option S :=
  match l with
  | [] => Some s
  | x :: l' =>
      match body s x with
      | Some s' => for_each body s' l'
      | None => None
      end
  end.

(** [str(i)] for an [int]: its decimal digits, with a leading minus sign
    for a negative number. *)
Definition str_of_int (i : Z) : str :=
  py (DecimalString.NilZero.string_of_int (Z.to_int i)).


(** [s.startswith(prefix)] *)
Definition startswith (s prefix : str) : bool :=
  bool_decide (take (length prefix) s = prefix).

End Py.
Import Py.

(** ** [uuid.uuid5] and what it rests on *)

Module Uuid.

Local Open Scope N_scope.

(** [bytes(name, "utf-8")]: the encoding of one code point; a surrogate (or
    a number that is no code point) raises [UnicodeEncodeError]. *)
Definition utf8_char (c : N) : option (list N) :=
  if c <? 0x80 then Some [c]
  else if c <? 0x800 then
    Some [N.lor 0xC0 (N.shiftr c 6); N.lor 0x80 (N.land c 0x3F)]
  else if c <? 0x10000 then
    if in_range 0xD800 0xDFFF c then None
    else Some [N.lor 0xE0 (N.shiftr c 12);
               N.lor 0x80 (N.land (N.shiftr c 6) 0x3F);
               N.lor 0x80 (N.land c 0x3F)]
  else if c <? 0x110000 then
    Some [N.lor 0xF0 (N.shiftr c 18);
          N.lor 0x80 (N.land (N.shiftr c 12) 0x3F);
          N.lor 0x80 (N.land (N.shiftr c 6) 0x3F);
          N.lor 0x80 (N.land c 0x3F)]
  else None.

Fixpoint utf8 (s : str) : option (list N) :=
  match s with
  | [] => Some []
  | c :: s' =>
      match utf8_char c, utf8 s' with
      | Some bs, Some bs' => Some (bs ++ bs')
      | _, _ => None
      end
  end.

(** Big-endian integers: [int.from_bytes(bs, "big")] and
    [i.to_bytes(n, "big")]. *)
Definition from_be (bs : list N) : N := foldl (λ acc b, 256 * acc + b) 0 bs.

Fixpoint to_be (n : nat) (i : N) : list N :=
  match n with
  | O => []
  | S n' => to_be n' (i / 256) ++ [i mod 256]
  end.

(** *** SHA-1 (FIPS 180-4) on 32-bit words held in [N] *)

Definition w32 (x : N) : N := N.land x 0xFFFFFFFF.

Definition rotl (n x : N) : N :=
  w32 (N.lor (N.shiftl x n) (N.shiftr x (32 - n))).

Definition not32 (x : N) : N := N.lxor x 0xFFFFFFFF.

(** The message followed by the bit [1], zeros up to 56 modulo 64 bytes and
    the bit length on 8 bytes. *)
Definition sha1_pad (msg : list N) : list N :=
  let l := N.of_nat (length msg) in
  msg ++ [0x80] ++ replicate (N.to_nat ((119 - l mod 64) mod 64)) 0
      ++ to_be 8 (8 * l).

(** [n] consecutive groups of [size] elements. *)
Fixpoint groups {A} (size n : nat) (l : list A) : list (list A) :=
  match n with
  | O => []
  | S n' => take size l :: groups size n' (drop size l)
  end.

(** The 80 words of the message schedule of a block of 16 words. *)
Definition sha1_schedule (block : list N) : list N :=
  rev (Nat.iter 64
         (λ ws, rotl 1 (N.lxor (N.lxor (N.lxor (nth 2 ws 0) (nth 7 ws 0))
                                         (nth 13 ws 0)) (nth 15 ws 0)) :: ws)
         (rev block)).

Definition sha1_f (t : nat) (b c d : N) : N :=
  if (t <? 20)%nat then N.lor (N.land b c) (N.land (not32 b) d)
  else if (t <? 40)%nat then N.lxor (N.lxor b c) d
  else if (t <? 60)%nat then
    N.lor (N.lor (N.land b c) (N.land b d)) (N.land c d)
  else N.lxor (N.lxor b c) d.

Definition sha1_k (t : nat) : N :=
  if (t <? 20)%nat then 0x5A827999
  else if (t <? 40)%nat then 0x6ED9EBA1
  else if (t <? 60)%nat then 0x8F1BBCDC
  else 0xCA62C1D6.

Definition sha1_round (st : N * N * N * N * N) (tw : nat * N)
  : N * N * N * N * N :=
  let '(a, b, c, d, e) := st in
  let '(t, w) := tw in
  let temp := w32 (rotl 5 a + sha1_f t b c d + e + sha1_k t + w) in
  (temp, a, rotl 30 b, c, d).

Definition sha1_compress (h : N * N * N * N * N) (block : list N)
  : N * N * N * N * N :=
  let '(h0, h1, h2, h3, h4) := h in
  let '(a, b, c, d, e) := foldl sha1_round h (imap pair (sha1_schedule block)) in
  (w32 (h0 + a), w32 (h1 + b), w32 (h2 + c), w32 (h3 + d), w32 (h4 + e)).

(** [hashlib.sha1(msg).digest()]: 20 bytes. *)
Definition sha1 (msg : list N) : list N :=
  let padded := sha1_pad msg in
  let words := from_be <$> groups 4 (length padded / 4) padded in
  let blocks := groups 16 (length words / 16) words in
  let '(h0, h1, h2, h3, h4) :=
    foldl sha1_compress
      (0x67452301, 0xEFCDAB89, 0x98BADCFE, 0x10325476, 0xC3D2E1F0) blocks in
  to_be 4 h0 ++ to_be 4 h1 ++ to_be 4 h2 ++ to_be 4 h3 ++ to_be 4 h4.

(** *** UUIDs *)

(** [uuid.NAMESPACE_URL.bytes] *)
Definition NAMESPACE_URL : list N :=
  [0x6b; 0xa7; 0xb8; 0x11; 0x9d; 0xad; 0x11; 0xd1;
   0x80; 0xb4; 0x00; 0xc0; 0x4f; 0xd4; 0x30; 0xc8].

(** [UUID(bytes=bs, version=version).int]: the variant and version bits are
    forced. *)
Definition uuid_int (bs : list N) (version : N) : N :=
  let i := from_be bs in
  let i := N.ldiff i (N.shiftl 0xc000 48) in
  let i := N.lor i (N.shiftl 0x8000 48) in
  let i := N.ldiff i (N.shiftl 0xf000 64) in
  N.lor i (N.shiftl version 76).

Definition hex_digit (d : N) : N := if d <? 10 then 48 + d else 87 + d.

(** ['%032x' % i], for [i] below [2^128]. *)
Definition hex32 (i : N) : str :=
  (λ j, hex_digit ((i / 16 ^ (31 - N.of_nat j)) mod 16)) <$> seq 0 32.

(** [str(UUID(int=i))]: the groups 8-4-4-4-12 of the 32 hexadecimal digits. *)
Definition str_of_uuid (i : N) : str :=
  let hex := hex32 i in
  take 8 hex ++ [45] ++ take 4 (drop 8 hex) ++ [45] ++ take 4 (drop 12 hex)
    ++ [45] ++ take 4 (drop 16 hex) ++ [45] ++ drop 20 hex.

(** [str(uuid.uuid5(namespace, name))]; [None] when [name] cannot be
    encoded. *)
Definition uuid5 (namespace : list N) (name : str) : option str :=
  match utf8 name with
  | Some bytes =>
      Some (str_of_uuid (uuid_int (take 16 (sha1 (namespace ++ bytes))) 5))
  | None => None
  end.

End Uuid.
Import Uuid.

(** ** [src/config.py] *)

Module Config.
(** Default of [RRF_K] (line 31). *)
Definition RRF_K : Z := 60.
(** Defaults of the prompt limits (lines 34-35). *)
Definition MAX_CODE_CHARS_PER_CHUNK : Z := 1800.
Definition MAX_TOTAL_CONTEXT_CHARS : Z := 9000.
End Config.

(** ** [src/database.py]: the query tokenizer *)

Module Database.

(** The two character classes of the pattern
    [[A-Za-z_][A-Za-z0-9_./-]{1,}]. *)
Definition is_start (c : char) : bool :=
  is_upper c || is_lower c || (c =? 95)%N.

Definition is_body (c : char) : bool :=
  is_upper c || is_lower c || is_digit c || (c =? 95)%N
  || (c =? 46)%N || (c =? 47)%N || (c =? 45)%N.

(** The longest prefix of body characters, and the rest (the greedy
    [{1,}]). *)
Fixpoint span_body (s : str) : str * str :=
  match s with
  | c :: s' =>
      if is_body c then let '(run, rest) := span_body s' in (c :: run, rest)
      else ([], s)
  | [] => ([], [])
  end.

Lemma span_body_shorter (s : str) :
  (length (span_body s).2 <= length s)%nat.
Proof.
  induction s as [|c s IH]; cbn; [lia|].
  destruct (is_body c); [|cbn; lia].
  destruct (span_body s); cbn in *; lia.
Qed.

(** [re.findall(r"[A-Za-z_][A-Za-z0-9_./-]{1,}", q)]: scanning from the
    left, a match starts at the first position that holds a start
    character followed by at least one body character, takes every body
    character that follows, and the scan resumes after the match. *)
Equations? findall (q : str) : list str by wf (length q) lt :=
  findall [] := [];
  findall (c :: q') with is_start c, (span_body q').1 := {
    | true, d :: run := (c :: d :: run) :: findall (span_body q').2;
    | _, _ := findall q' }.
Proof. all: pose proof (span_body_shorter q'); cbn [length]; lia. Qed.

(** The loop of [_tokenize_query] (lines 24-28): [seen] holds the
    lower-cased tokens met so far, [out] the tokens kept. *)
Fixpoint dedup_loop (toks : list str) (seen : gset str) (out : list str)
  : list str :=
  match toks with
  | [] => out
  | t :: toks' =>
      let tl := lower t in
      if decide (tl ∈ seen) then dedup_loop toks' seen out
      else dedup_loop toks' ({[tl]} ∪ seen) (out ++ [t])
  end.

Definition _tokenize_query (q : str) : list str :=
  let toks := findall q in
  take 8 (dedup_loop toks ∅ []).

(** *** Records of the store *)

(** A payload value ([Dict[str, Any]] holds strings, integers, floats, lists
    of strings and [None]). *)
Inductive value : Type :=
| VStr (s : str)
| VInt (i : Z)
| VFloat (x : Q)
| VList (l : list str)
| VNone.

Abbreviation payload := (gmap (list N) value) (only parsing).

(** A point identifier of the store is an integer or a string. *)
Inductive point_id : Type :=
| IdInt (i : Z)
| IdStr (s : str).

(** [str(sp.id)] *)
Definition str_of_id (i : point_id) : str :=
  match i with
  | IdInt n => str_of_int n
  | IdStr s => s
  end.

(** [models.ScoredPoint], with the fields the code reads or writes. *)
Record ScoredPoint : Type := mkScoredPoint {
  sp_id : point_id;
  sp_version : Z;
  sp_score : Q;
  sp_payload : option payload;
}.

(** [models.Record], what [scroll] returns. *)
Record Point : Type := mkPoint {
  p_id : point_id;
  p_payload : option payload;
}.

(** The handler's two collaborators: the embedding model and the store
    client. A call of the client that raises returns [None]; a method the
    client does not have is [None] itself ([hasattr]). *)
Record QdrantHandler : Type := mkHandler {
  embed_query : str → list Q;
  query_points :
    option (str → list Q → str → Z → option (list ScoredPoint));
  search_points :
    option (str → list Q → str → Z → option (list ScoredPoint));
  scroll : str → list (str * str) → Z → list Point;
}.

(** *** Insertion-ordered dictionaries ([scores]) *)

(** [d.get(k, default)] *)
Fixpoint dict_get {V} (d : list (str * V)) (k : str) (default : V) : V :=
  match d with
  | [] => default
  | (k', v) :: d' => if decide (k' = k) then v else dict_get d' k default
  end.

(** [d[k]], [None] for a missing key. *)
Fixpoint dict_lookup {V} (d : list (str * V)) (k : str) : option V :=
  match d with
  | [] => None
  | (k', v) :: d' => if decide (k' = k) then Some v else dict_lookup d' k
  end.

(** [d[k] = v]: a key already present keeps its place, a new key goes last. *)
Fixpoint dict_set {V} (d : list (str * V)) (k : str) (v : V) : list (str * V) :=
  match d with
  | [] => [(k, v)]
  | (k', v') :: d' =>
      if decide (k' = k) then (k, v) :: d' else (k', v') :: dict_set d' k v
  end.

(** *** [sorted(items, key=lambda x: x[1], reverse=True)] *)

(** A stable sort by decreasing score: items of equal score keep the order
    they had. *)
Fixpoint insert_desc {A} (x : A * Q) (l : list (A * Q)) : list (A * Q) :=
  match l with
  | [] => [x]
  | y :: l' => if Qle_bool y.2 x.2 then x :: l else y :: insert_desc x l'
  end.

Definition sorted_desc {A} (l : list (A * Q)) : list (A * Q) :=
  foldr insert_desc [] l.

(** *** Search legs and fusion *)

Section Handler.

Variable COLLECTION_CODEBASE : str.
Variable RRF_K : Z.
Variable self : QdrantHandler.

(** [_qdrant_dense_search], lines 75-105: the preferred call, the older call
    when the preferred one is missing or raises, [RuntimeError] when neither
    exists. *)
Definition _qdrant_dense_search (collection_name : str) (vector : list Q)
    (vector_name : str) (limit : Z) : option (list ScoredPoint) :=
  match query_points self ≫= (λ f, f collection_name vector vector_name limit) with
  | Some points => Some points
  | None => search_points self ≫= (λ f, f collection_name vector vector_name limit)
  end.

Definition search_dense (query : str) (limit : Z) : option (list ScoredPoint) :=
  let dense_vec := embed_query self query in
  _qdrant_dense_search COLLECTION_CODEBASE dense_vec (py "dense") limit.

(** [search_keyword], lines 123-159. *)
Definition search_keyword (query : str) (limit : Z) : list ScoredPoint :=
  let tokens := _tokenize_query query in
  match tokens with
  | [] => []
  | _ =>
      let should :=
        t ← tokens;
        [(py "code", t); (py "name", t); (py "file", t); (py "docstring", t)] in
      let points := scroll self COLLECTION_CODEBASE should limit in
      imap (λ i p, {| sp_id := p_id p; sp_version := 0;
                      sp_score := 1 / inject_Z (1 + Z.of_nat i);
                      sp_payload := p_payload p |}) points
  end.

(** The inner function [add] of [_rrf_fuse], lines 173-178, with the two
    dictionaries it updates passed in and out; [rank] is the counter of
    [enumerate(results, start=1)]. Dividing by zero raises. *)
Fixpoint add (k : Z) (rank : Z) (results : list ScoredPoint)
    (scores : list (str * Q)) (payloads : gmap str payload)
  : option (list (str * Q) * gmap str payload) :=
  match results with
  | [] => Some (scores, payloads)
  | sp :: results' =>
      let pid := str_of_id (sp_id sp) in
      if decide (k + rank = 0) then None
      else
        let scores := dict_set scores pid
                        (dict_get scores pid 0 + 1 / inject_Z (k + rank))%Q in
        let payloads := match sp_payload sp with
                        | Some p => <[pid := p]> payloads
                        | None => payloads
                        end in
        add k (rank + 1) results' scores payloads
  end.

(** One element of the list built on line 184:
    [(pid, sc, payloads.get(pid, {}))]. *)
Definition fused_entry (payloads : gmap str payload) (e : str * Q)
  : str * Q * payload :=
  let '(pid, sc) := e in (pid, sc, default ∅ (payloads !! pid)).

(** [_rrf_fuse], lines 164-184. *)
Definition _rrf_fuse (dense keyword : list ScoredPoint) (k : Z)
  : option (list (str * Q * payload)) :=
  '(scores, payloads) ← add k 1 dense [] ∅;
  '(scores, payloads) ← add k 1 keyword scores payloads;
  let fused := sorted_desc scores in
  Some (fused_entry payloads <$> fused).

(** [search_hybrid], lines 186-197. *)
Definition search_hybrid (query : str) (limit : Z) : option (list payload) :=
  dense ← search_dense query limit;
  let keyword := search_keyword query limit in
  fused ← _rrf_fuse dense keyword RRF_K;
  Some ((λ '(pid, score, payload),
           <[py "_id" := VStr pid]> (<[py "_hybrid_score" := VFloat score]> payload))
          <$> slice fused 0 limit).

End Handler.

End Database.
Import Database.

(** ** The extraction artifact shared by [src/parser.py] and [src/ingest.py] *)

Module Artifact.

(** One retrieval unit as a JSON object. A field is [None] when the key is
    missing (for ["code"], also when it is [null]); the parser writes every
    field, the ingester reads each with a default. *)
Record Item : Type := mkItem {
  i_type : option str;
  i_name : option str;
  i_symbol : option str;
  i_start_line : option Z;
  i_end_line : option Z;
  i_docstring : option str;
  i_code : option str;
  i_preceding_comments : option (list str);
  i_language : option str;
}.

(** The value of [parsed_code[rel_path]]. *)
Record FileEntry : Type := mkFileEntry {
  ast_items : option (list Item);
  file_chunks : option (list Item);
  imports : option (list str);
  global_variables : option (list str);
  syntax_error : option str;
}.

(** The document written to [parsed_code.json] ([final], lines 297-308). *)
Record Document : Type := mkDocument {
  repo_root : option str;
  readme : option str;
  parsed_code : option (list (str * FileEntry));
  num_files : Z;
  num_syntax_errors : Z;
  chunk_lines : Z;
  chunk_overlap : Z;
  syntax_errors : list (str * str);
}.

End Artifact.
Import Artifact.

(** ** [src/parser.py] *)

Module Parser.

(** The line feed that joins the lines of a chunk. *)
Definition nl : str := [10%N].

(** One turn of the loop of [chunk_by_lines] (lines 86-88): the window that
    starts after line [start]. *)
Definition window (lines : list str) (chunk_lines start : Z) : Z * Z * str :=
  let n := Z.of_nat (length lines) in
  let end_ := Z.min n (start + chunk_lines) in
  let chunk_text := join nl (slice lines start end_) in
  (start + 1, end_, chunk_text).

(** The [while] loop of [chunk_by_lines] (lines 85-91), from [start]. *)
Equations? chunk_loop (lines : list str) (chunk_lines overlap : Z) (start : Z)
  : list (Z * Z * str) by wf (Z.to_nat (Z.of_nat (length lines) - start)) lt :=
  chunk_loop lines chunk_lines overlap start
    with decide (start < Z.of_nat (length lines)) := {
    | right _ := [];
    | left _
        with decide (Z.min (Z.of_nat (length lines)) (start + chunk_lines)
                     = Z.of_nat (length lines)) := {
      | left _ := [window lines chunk_lines start];
      | right _ :=
          let step := Z.max 1 (chunk_lines - overlap) in
          window lines chunk_lines start
            :: chunk_loop lines chunk_lines overlap (start + step) } }.
Proof. lia. Qed.

(** [chunk_by_lines], lines 72-92. *)
Definition chunk_by_lines (text : str) (chunk_lines overlap : Z)
  : list (Z * Z * str) :=
  let lines := splitlines text in
  match lines with
  | [] => []
  | _ => chunk_loop lines chunk_lines overlap 0
  end.

(** The two triple quotes that open a docstring. *)
Definition triple_double : str := [34; 34; 34]%N.
Definition triple_single : str := py "'''".

(** The [while] loop of [extract_preceding_comments] (lines 98-107) with
    [idx = n - 1]: an index past the end of [raw_lines] raises
    [IndexError]. *)
Fixpoint comments_loop (raw_lines : list str) (n : nat) (comments : list str)
  : option (list str) :=
  match n with
  | O => Some comments
  | S idx =>
      match raw_lines !! idx with
      | None => None
      | Some raw =>
          let line := strip raw in
          if startswith line (py "#") then
            comments_loop raw_lines idx (strip (drop 1 line) :: comments)
          else if bool_decide (line = []) || startswith line triple_double
                  || startswith line triple_single then
            comments_loop raw_lines idx comments
          else Some comments
      end
  end.

(** [extract_preceding_comments], lines 95-108. *)
Definition extract_preceding_comments (raw_lines : list str) (lineno : Z)
  : option (list str) :=
  comments_loop raw_lines (Z.to_nat (lineno - 2 + 1)) [].

(** [CodeParser._safe_unparse], lines 195-202: [unparsed] is the text that
    [ast.unparse] returns for the node, [None] when it raises; [lineno] and
    [end_lineno] are the attributes of the node, [None] when it has none. *)
Definition _safe_unparse (unparsed : option str) (raw_lines : list str)
    (lineno end_lineno : option Z) : str :=
  match unparsed with
  | Some text => text
  | None =>
      let start := Z.max 1 (default 1 lineno) in
      let end_ := Z.max start (default start end_lineno) in
      join nl (slice raw_lines (start - 1) end_)
  end.

(** What [CodeParser.parse] returns. *)
Record ParseResult : Type := mkParseResult {
  r_items : list Item;
  r_imports : list str;
  r_global_variables : list str;
  r_syntax_error : option str;
}.

Section Extractor.

(** The syntax tree of the [ast] module; its parser, which returns a tree or
    raises a [SyntaxError] (the class name of the exception and its message;
    [SyntaxError] and its subclasses are what [parse] catches, any other
    exception is outside the model); and the visit of a tree by [CodeParser]
    for a file path and its content, which collects items, imports and global
    variables. *)
Variable Tree : Type.
Variable ast_parse : str → Tree + (str * str).
Variable visit : str → str → Tree → list Item * list str * list str.

(** [safe_read_text]: the text of a file, [None] when it is unreadable or
    larger than [MAX_FILE_BYTES]. *)
Variable safe_read_text : str → option str.

Variables CHUNK_LINES CHUNK_OVERLAP : Z.

(** [CodeParser(file_path, content).parse()], lines 204-223. *)
Definition parse (file_path content : str) : ParseResult :=
  match ast_parse content with
  | inl tree =>
      let '(items, imports, global_variables) := visit file_path content tree in
      {| r_items := items; r_imports := imports;
         r_global_variables := global_variables; r_syntax_error := None |}
  | inr (class_name, message) =>
      {| r_items := []; r_imports := []; r_global_variables := [];
         r_syntax_error := Some (class_name ++ py ": " ++ message) |}
  end.

(** The dictionary appended for one window (lines 277-287). *)
Definition file_chunk (rel_path : str) (chunk : Z * Z * str) : Item :=
  let '(s, e, chunk_text) := chunk in
  {| i_type := Some (py "FileChunk");
     i_name := Some (rel_path ++ py "::chunk_" ++ str_of_int s ++ py "_"
                     ++ str_of_int e);
     i_symbol := Some [];
     i_start_line := Some s;
     i_end_line := Some e;
     i_docstring := Some [];
     i_code := Some chunk_text;
     i_preceding_comments := Some [];
     i_language := Some (py "python") |}.

(** The entry of a file that could not be read (lines 256-262). *)
Definition skipped_entry : FileEntry :=
  {| ast_items := Some []; file_chunks := Some []; imports := Some [];
     global_variables := Some [];
     syntax_error := Some (py "SKIPPED: unreadable or too large") |}.

(** The entry built for a file that was read (lines 274-295). *)
Definition read_entry (rel_path content : str) (ast_result : ParseResult)
  : FileEntry :=
  let chunks := chunk_by_lines content CHUNK_LINES CHUNK_OVERLAP in
  {| ast_items := Some (r_items ast_result);
     file_chunks := Some (file_chunk rel_path <$> chunks);
     imports := Some (r_imports ast_result);
     global_variables := Some (r_global_variables ast_result);
     syntax_error := r_syntax_error ast_result |}.

(** What one turn of the loop stores for a file, and the errors it adds. *)
Definition file_entry (rel_path : str) : FileEntry :=
  match safe_read_text rel_path with
  | None => skipped_entry
  | Some content => read_entry rel_path content (parse rel_path content)
  end.

Definition file_errors (rel_path : str) : list (str * str) :=
  match safe_read_text rel_path with
  | None => []
  | Some content =>
      match r_syntax_error (parse rel_path content) with
      | Some (c :: e) => [(rel_path, c :: e)]
      | _ => []
      end
  end.

(** One turn of the loop of [run] over the files (lines 251-295), on the
    two collections it fills; paths are taken relative to the root. *)
Definition run_file (st : list (str * FileEntry) * list (str * str))
    (rel_path : str) : list (str * FileEntry) * list (str * str) :=
  let '(parsed, syntax_errors) := st in
  match safe_read_text rel_path with
  | None => (dict_set parsed rel_path skipped_entry, syntax_errors)
  | Some content =>
      let ast_result := parse rel_path content in
      let syntax_errors :=
        match r_syntax_error ast_result with
        | Some (c :: e) => syntax_errors ++ [(rel_path, c :: e)]
        | _ => syntax_errors
        end in
      (dict_set parsed rel_path (read_entry rel_path content ast_result),
       syntax_errors)
  end.

(** [run], lines 240-311: the document that is written. *)
Definition run (repo_root readme_content : str) (py_files : list str) : Document :=
  let '(parsed, syntax_errors) := foldl run_file ([], []) py_files in
  {| repo_root := Some repo_root;
     readme := Some readme_content;
     parsed_code := Some parsed;
     num_files := Z.of_nat (length py_files);
     num_syntax_errors := Z.of_nat (length syntax_errors);
     chunk_lines := CHUNK_LINES;
     chunk_overlap := CHUNK_OVERLAP;
     syntax_errors := slice syntax_errors 0 200 |}.

End Extractor.

End Parser.
Import Parser.

(** ** [src/ingest.py] *)

Module Ingest.

(** [models.PointStruct]: identifier, the vector named ["dense"], payload. *)
Record PointStruct : Type := mkPointStruct {
  ps_id : str;
  ps_vector : list Q;
  ps_payload : payload;
}.

(** [_iter_items], lines 115-127: the items of every file, syntactic units
    before file chunks. *)
Definition _iter_items (parsed_code : list (str * FileEntry)) : list Item :=
  '(file_path, info) ← parsed_code;
  default [] (ast_items info) ++ default [] (file_chunks info).

(** [_stable_point_id], lines 130-140. The identifier is [None] when the key
    cannot be encoded ([uuid5] raises). *)
Definition _stable_point_id (file_path : str) (item : Item) : option str :=
  let start := default 1 (i_start_line item) in
  let end_ := default start (i_end_line item) in
  let typ := default (py "Unknown") (i_type item) in
  let symbol := default [] (i_symbol item) in
  let name := default [] (i_name item) in
  let key := file_path ++ py "::" ++ typ ++ py "::" ++ symbol ++ py "::" ++ name
             ++ py "::" ++ str_of_int start ++ py "-" ++ str_of_int end_ in
  uuid5 NAMESPACE_URL key.

(** [_batched], lines 143-145. *)
Definition _batched {A} (it : list A) (batch_size : Z) : option (list (list A)) :=
  match range 0 (Z.of_nat (length it)) batch_size with
  | Some starts => Some ((λ i, slice it i (i + batch_size)) <$> starts)
  | None => None
  end.

(** [int(x or 1)] for an integer field read with default 1. *)
Definition int_or_1 (x : option Z) : Z :=
  match x with
  | Some 0 | None => 1
  | Some i => i
  end.

Section Run.

Variable db : QdrantHandler.
Variable BATCH_SIZE : Z.

(** The payload of a record (lines 185-204). *)
Definition point_payload (repo_root file_path : str) (item : Item)
    (code_text : str) : payload :=
  list_to_map
    [(py "file", VStr file_path);
     (py "name", VStr (default [] (i_name item)));
     (py "symbol", VStr (default [] (i_symbol item)));
     (py "type", VStr (default (py "Unknown") (i_type item)));
     (py "language", VStr (default (py "python") (i_language item)));
     (py "start_line", VInt (int_or_1 (i_start_line item)));
     (py "end_line", VInt (int_or_1 (i_end_line item)));
     (py "docstring", VStr (default [] (i_docstring item)));
     (py "preceding_comments", VList (default [] (i_preceding_comments item)));
     (py "code", VStr code_text);
     (py "repo_root", VStr repo_root)].

(** The body of the inner loop (lines 176-213) for one item. *)
Definition ingest_item (repo_root file_path : str)
    (points : list PointStruct) (item : Item) : option (list PointStruct) :=
  let code_text := strip (default [] (i_code item)) in
  match code_text with
  | [] => Some points
  | _ =>
      point_id ← _stable_point_id file_path item;
      let vec := embed_query db code_text in
      let payload := point_payload repo_root file_path item code_text in
      Some (points ++ [{| ps_id := point_id; ps_vector := vec;
                          ps_payload := payload |}])
  end.

(** The body of the outer loop (lines 174-175) for one file. *)
Definition ingest_file (repo_root : str) (points : list PointStruct)
    (entry : str * FileEntry) : option (list PointStruct) :=
  let '(file_path, info) := entry in
  for_each (ingest_item repo_root file_path) points
    (default [] (ast_items info) ++ default [] (file_chunks info)).

(** [run_ingest], lines 148-227, on the document read from
    [parsed_code.json] ([None] when the file is missing): the batches that
    are upserted, in order, or [None] when the run raises, which it can only
    do before the first upsert. *)
Definition run_ingest (data : option Document) : option (list (list PointStruct)) :=
  match data with
  | None => Some []
  | Some data =>
      match default [] (parsed_code data) with
      | [] => Some []
      | parsed_code =>
          let repo_root := default [] (repo_root data) in
          points ← for_each (ingest_file repo_root) [] parsed_code;
          match points with
          | [] => Some []
          | _ => _batched points BATCH_SIZE
          end
      end
  end.

End Run.

End Ingest.
Import Ingest.

(** ** Retrieved chunks, as [src/recommend.py] and [src/chat.py] read them *)

Module Retrieved.

(** A result of [search_hybrid] as a typed object: the fields that the two
    readers look up, with the types [run_ingest] and [search_hybrid] write
    them with. A field is [None] when the key is missing. *)
Record Chunk : Type := mkChunk {
  c_file : option str;
  c_name : option str;
  c_start_line : option Z;
  c_end_line : option Z;
  c_code : option str;
  c_hybrid_score : option Q;
}.

End Retrieved.
Import Retrieved.

(** ** [src/recommend.py] *)

Module Recommend.

(** The f-string of line 29. *)
Definition rec_line (f name : str) : str :=
  py "- Inspect `" ++ f ++ py "` (related: `" ++ name ++ py "`)".

(** [sorted(retrieved_chunks, key=lambda x: x.get("_hybrid_score", 0.0),
    reverse=True)], lines 14-18. *)
Definition by_hybrid_score (retrieved_chunks : list Chunk) : list Chunk :=
  (sorted_desc ((λ x, (x, default 0%Q (c_hybrid_score x))) <$> retrieved_chunks)).*1.

(** The loop of lines 23-31. *)
Fixpoint recommend_loop (chunks : list Chunk) (limit : Z)
    (seen_files : gset str) (recs : list str) : list str :=
  match chunks with
  | [] => recs
  | c :: chunks' =>
      let f := default [] (c_file c) in
      let name := default [] (c_name c) in
      if decide (f = [] ∨ f ∈ seen_files) then
        recommend_loop chunks' limit seen_files recs
      else
        let seen_files := {[f]} ∪ seen_files in
        let recs := recs ++ [rec_line f name] in
        if decide (limit ≤ Z.of_nat (length recs)) then recs
        else recommend_loop chunks' limit seen_files recs
  end.

(** [recommend_next_steps], lines 4-33. *)
Definition recommend_next_steps (retrieved_chunks : list Chunk) (limit : Z)
  : list str :=
  match retrieved_chunks with
  | [] => []
  | _ => recommend_loop (by_hybrid_score retrieved_chunks) limit ∅ []
  end.

End Recommend.
Import Recommend.

(** ** [src/chat.py] *)

Module Chat.

(** A retrieved memory, with the one field [_build_memory] reads. *)
Record Memory : Type := mkMemory {
  m_text : option str;
}.

Section Limits.

Variables MAX_CODE_CHARS_PER_CHUNK MAX_TOTAL_CONTEXT_CHARS : Z.

(** The block of one chunk (lines 17-23). *)
Definition block_of (c : Chunk) : str :=
  let file := default (py "unknown") (c_file c) in
  let name := default (py "unknown") (c_name c) in
  let start := from_option str_of_int (py "?") (c_start_line c) in
  let end_ := from_option str_of_int (py "?") (c_end_line c) in
  let code := slice (default [] (c_code c)) 0 MAX_CODE_CHARS_PER_CHUNK in
  py "[" ++ file ++ py ":" ++ start ++ py "-" ++ end_ ++ py "]  " ++ name
    ++ nl ++ py "```python" ++ nl ++ code ++ nl ++ py "```".

(** The loop of lines 16-27. *)
Fixpoint context_loop (chunks : list Chunk) (parts : list str) (total : Z)
  : list str :=
  match chunks with
  | [] => parts
  | c :: chunks' =>
      let block := block_of c in
      if decide (MAX_TOTAL_CONTEXT_CHARS < total + Z.of_nat (length block))
      then parts
      else context_loop chunks' (parts ++ [block])
             (total + Z.of_nat (length block))
  end.

(** [_build_context], lines 12-29. *)
Definition _build_context (chunks : list Chunk) : str :=
  join (nl ++ nl) (context_loop chunks [] 0).

End Limits.

(** [_build_memory], lines 31-37. *)
Definition _build_memory (mem_items : list Memory) : str :=
  match mem_items with
  | [] => []
  | _ => join nl ((λ m, py "- " ++ slice (default [] (m_text m)) 0 800)
                    <$> mem_items)
  end.

End Chat.
Import Chat.


(** * Vocabulary of the properties *)

(** A token of the shape "one start character, then at least [m] body
    characters". *)
Definition token_shape (m : nat) (t : str) : Prop :=
  match t with
  | c :: rest => is_start c ∧ Forall (λ d, is_body d) rest ∧ (m ≤ length rest)%nat
  | [] => False
  end.

(** The key under which fusion files a result, and the keys of a leg. *)
Definition pid_of (sp : ScoredPoint) : str := str_of_id (sp_id sp).

Definition ids (leg : list ScoredPoint) : list str := pid_of <$> leg.

(** A leg is a ranking when it lists every record once, as a search of the
    store does: the rank of a record is then its position. *)
Definition ranking (leg : list ScoredPoint) : Prop := NoDup (ids leg).






(** The sum of what every occurrence of a record in a leg adds to its score,
    ranks counted from [r]. *)
Fixpoint total_from (k r : Z) (leg : list ScoredPoint) (pid : str) : Q :=
  match leg with
  | [] => 0
  | sp :: leg' =>
      ((if decide (pid_of sp = pid) then 1 / inject_Z (k + r) else 0)
       + total_from k (r + 1) leg' pid)%Q
  end.

(** The payload last written for a record while a leg is processed, [acc]
    being what was stored before. *)
Fixpoint last_payload (leg : list ScoredPoint) (pid : str)
    (acc : option payload) : option payload :=
  match leg with
  | [] => acc
  | sp :: leg' =>
      last_payload leg' pid
        (if decide (pid_of sp = pid)
         then match sp_payload sp with Some p => Some p | None => acc end
         else acc)
  end.





(** Scores never increase along a list. *)
Definition by_score_desc {A} (x y : A * Q) : Prop := (y.2 <= x.2)%Q.

(** Some rank of the leg is [-k]: line 176 divides by zero and raises. *)
Definition cancels (k : Z) (leg : list ScoredPoint) : Prop :=
  ∃ i, (i < length leg)%nat ∧ k + 1 + Z.of_nat i = 0.

(** The order of a fused list: scores never increase. *)
Definition fused_desc (e1 e2 : str * Q * payload) : Prop := (e2.1.2 <= e1.1.2)%Q.

(** ** Line windows *)

(** The line range of a chunk. *)
Definition window_of (chunk : Z * Z * str) : Z * Z := chunk.1.

(** Line [x] lies in the 1-based inclusive range [w]. *)
Definition covers (w : Z * Z) (x : Z) : Prop := w.1 ≤ x ≤ w.2.

(** The number of lines two inclusive ranges have in common. *)
Definition shared (w1 w2 : Z * Z) : Z :=
  Z.max 0 (Z.min w1.2 w2.2 - Z.max w1.1 w2.1 + 1).

(** The four-line text [a], [b], [c], [d]. *)
Definition four_lines : str := join nl [py "a"; py "b"; py "c"; py "d"].

(** ** A sample source tree *)

(** A parser that accepts only the text [ok]. *)
Definition sample_ast_parse (content : str) : unit + (str * str) :=
  if decide (content = py "ok") then inl ()
  else inr (py "SyntaxError", py "invalid syntax (<unknown>, line 1)").

Definition sample_visit (file_path content : str) (tree : unit)
  : list Item * list str * list str := ([], [], []).

(** Three files: [a.py] parses, [b.py] does not, [c.py] is unreadable. *)
Definition sample_read (rel_path : str) : option str :=
  if decide (rel_path = py "a.py") then Some (py "ok")
  else if decide (rel_path = py "b.py") then Some (py "def (")
  else None.

Definition sample_files : list str := [py "a.py"; py "b.py"; py "c.py"].

(** ** Record identifiers *)



(** The identifier derived from six given values. *)
Definition point_id_of (file_path typ symbol name : str) (start end_ : Z)
  : option str :=
  _stable_point_id file_path
    {| i_type := Some typ; i_name := Some name; i_symbol := Some symbol;
       i_start_line := Some start; i_end_line := Some end_;
       i_docstring := None; i_code := None; i_preceding_comments := None;
       i_language := None |}.

(** Every string of [n] characters drawn from [cs]. *)
Fixpoint all_words (n : nat) (cs : list N) : list str :=
  match n with
  | O => [[]]
  | S n' => c ← cs; w ← all_words n' cs; [c :: w]
  end.

(** The characters of the text of a UUID. *)
Definition uuid_alphabet : list N := py "0123456789abcdef-".

(** ** Ingestion *)

(** The code text a record is built from (line 176). *)
Definition code_of (item : Item) : str := strip (default [] (i_code item)).

(** The code field of a stored record. *)
Definition stored_code (p : PointStruct) : option value :=
  ps_payload p !! py "code".

(** An item with code [code], every other field as the parser writes it for
    a function called [f]. *)
Definition sample_item (code : string) : Item :=
  {| i_type := Some (py "Function"); i_name := Some (py "a.py::f");
     i_symbol := Some (py "f"); i_start_line := Some 1; i_end_line := Some 3;
     i_docstring := Some []; i_code := Some (py code);
     i_preceding_comments := Some []; i_language := Some (py "python") |}.

(** A document of one file with a unit of real code, a unit of blank code
    and a chunk. *)
Definition sample_document : Document :=
  {| repo_root := Some (py "/repo"); readme := Some [];
     parsed_code :=
       Some [(py "a.py",
              {| ast_items := Some [sample_item "def f(): pass"; sample_item "   "];
                 file_chunks := Some [sample_item " x = 1 "];
                 imports := Some []; global_variables := Some [];
                 syntax_error := None |})];
     num_files := 1; num_syntax_errors := 0; chunk_lines := 200;
     chunk_overlap := 40; syntax_errors := [] |}.

(** ** Sample records *)

(** A scored point named [name] whose payload holds [text] as its code. *)
Definition sample (name text : string) : ScoredPoint :=
  {| sp_id := IdStr (py name); sp_version := 0; sp_score := 0;
     sp_payload := Some {[py "code" := VStr (py text)]} |}.

(** Record A first and B second in the dense leg, A third in the keyword
    leg. *)
Definition sample_dense : list ScoredPoint :=
  [sample "A" "dense"; sample "B" "dense"].

(** A leg that lists record A twice, after B. *)
Definition sample_repeating : list ScoredPoint :=
  [sample "B" "dense"; sample "A" "dense"; sample "A" "dense"].

Definition sample_keyword : list ScoredPoint :=
  [sample "C" "keyword"; sample "D" "keyword"; sample "A" "keyword"].

(** A handler whose store holds the two sample legs. *)
Definition sample_handler : QdrantHandler :=
  {| embed_query := λ _, [];
     query_points := Some (λ _ _ _ _, Some sample_dense);
     search_points := None;
     scroll := λ _ _ _, (λ sp, mkPoint (sp_id sp) (sp_payload sp)) <$> sample_keyword |}.

(** ** The fused list and the results of the hybrid search *)

Definition met_before (l : list str) (p1 p2 : str) : Prop :=
  ∃ l1 l2, l = l1 ++ (p1 :: l2) ∧ (p2 ∉ l1) ∧ p2 ≠ p1.

Definition stands_before {A} (l : list A) (x y : A) : Prop :=
  ∃ i j, (i < j)%nat ∧ l !! i = Some x ∧ l !! j = Some y.

Definition result_id (pl : payload) : option str :=
  match pl !! py "_id" with Some (VStr pid) => Some pid | _ => None end.

Definition hybrid_score (pl : payload) : option Q :=
  match pl !! py "_hybrid_score" with Some (VFloat sc) => Some sc | _ => None end.

(** ** Lines and comments *)

(** A line that holds a comment, and the text kept from it. *)
Definition comment_line (raw : str) : bool := startswith (strip raw) (py "#").

Definition comment_text (raw : str) : str := strip (drop 1 (strip raw)).

(** A line the scan steps over: blank, or starting with a triple quote. *)
Definition passed_line (raw : str) : bool :=
  bool_decide (strip raw = []) || startswith (strip raw) triple_double
  || startswith (strip raw) triple_single.

(** A list of lines without the empty line it may end with. *)
Definition without_last_empty (ls : list str) : list str :=
  match last ls with
  | Some [] => take (length ls - 1) ls
  | _ => ls
  end.

(** A file that was read and that [ast.parse] rejects. *)
Definition parse_fails {Tree} (ast_parse : str → Tree + (str * str))
    (safe_read_text : str → option str) (rel_path : str) : bool :=
  match safe_read_text rel_path with
  | Some content => if ast_parse content is inr _ then true else false
  | None => false
  end.

(** ** Upserted records *)

(** The eleven keys of the payload of a record. *)
Definition payload_keys : list str :=
  py <$> ["file"; "name"; "symbol"; "type"; "language"; "start_line";
          "end_line"; "docstring"; "preceding_comments"; "code"; "repo_root"].

(** The integer stored under a key of a payload. *)
Definition stored_int (p : PointStruct) (key : str) : option Z :=
  match ps_payload p !! key with Some (VInt i) => Some i | _ => None end.

(** ** Recommendations and the prompt *)

(** The file and the name that a recommendation shows for a chunk. *)
Definition file_of (c : Chunk) : str := default [] (c_file c).
Definition name_of (c : Chunk) : str := default [] (c_name c).

(** The chunks for which the loop of [recommend_next_steps] appends a line,
    [n] lines having been appended before. *)
Fixpoint picked (chunks : list Chunk) (limit : Z) (seen : gset str) (n : nat)
  : list Chunk :=
  match chunks with
  | [] => []
  | c :: chunks' =>
      if decide (file_of c = [] ∨ file_of c ∈ seen) then picked chunks' limit seen n
      else if decide (limit ≤ Z.of_nat (S n)) then [c]
           else c :: picked chunks' limit ({[file_of c]} ∪ seen) (S n)
  end.

(** The typed reading of a field of a payload: nothing when the value has
    another type. *)
Definition str_field (pl : payload) (key : str) : option (option str) :=
  match pl !! key with
  | None => Some None
  | Some (VStr s) => Some (Some s)
  | Some _ => None
  end.

Definition int_field (pl : payload) (key : str) : option (option Z) :=
  match pl !! key with
  | None => Some None
  | Some (VInt i) => Some (Some i)
  | Some _ => None
  end.

Definition float_field (pl : payload) (key : str) : option (option Q) :=
  match pl !! key with
  | None => Some None
  | Some (VFloat x) => Some (Some x)
  | Some _ => None
  end.

(** The chunk that a result of [search_hybrid] is read as. *)
Definition chunk_of (pl : payload) : option Chunk :=
  match str_field pl (py "file"), str_field pl (py "name"),
        int_field pl (py "start_line"), int_field pl (py "end_line"),
        str_field pl (py "code"), float_field pl (py "_hybrid_score") with
  | Some file, Some name, Some start, Some end_, Some code, Some score =>
      Some {| c_file := file; c_name := name; c_start_line := start;
              c_end_line := end_; c_code := code; c_hybrid_score := score |}
  | _, _, _, _, _, _ => None
  end.

(** The number of characters of a list of strings. *)
Definition total_length (parts : list str) : Z :=
  Z.of_nat (sum_list_with length parts).

(** A stored record of file [file] and name [name]. *)
Definition sample_unit (id file name : string) : ScoredPoint :=
  {| sp_id := IdStr (py id); sp_version := 0; sp_score := 0;
     sp_payload :=
       Some (list_to_map
               [(py "file", VStr (py file)); (py "name", VStr (py name));
                (py "start_line", VInt 1); (py "end_line", VInt 2);
                (py "code", VStr (py "pass"))]) |}.

(** A handler whose dense search finds [f] and [g] and whose scroll finds
    [h] and [f]. *)
Definition sample_code_handler : QdrantHandler :=
  {| embed_query := λ _, [];
     query_points :=
       Some (λ _ _ _ _, Some [sample_unit "1" "a.py" "a.py::f";
                              sample_unit "2" "b.py" "b.py::g"]);
     search_points := None;
     scroll := λ _ _ _,
       (λ sp, mkPoint (sp_id sp) (sp_payload sp))
         <$> [sample_unit "3" "a.py" "a.py::h"; sample_unit "1" "a.py" "a.py::f"] |}.

(** A chunk of file [file] and name [name] with score [score]. *)
Definition sample_chunk (file name : string) (score : Q) : Chunk :=
  {| c_file := Some (py file); c_name := Some (py name);
     c_start_line := Some 1; c_end_line := Some 2; c_code := Some (py "pass");
     c_hybrid_score := Some score |}.

(** * Properties *)

(** ** The query tokenizer *)

Section Tokenizer.

Lemma span_body_spec (s : str) :
  Forall (λ d, is_body d) (span_body s).1 ∧ s = (span_body s).1 ++ (span_body s).2.
Proof.
  induction s as [|c s [IH1 IH2]]; cbn; [by split|].
  destruct (is_body c) eqn:Hc; [|by split].
  destruct (span_body s) as [run rest]; cbn in *.
  split; [constructor; [by rewrite Hc | done] | by f_equal].
Qed.

Lemma findall_shape (q : str) : Forall (token_shape 1) (findall q).
Proof.
  funelim (findall q); simp findall; try done.
  constructor; [|done].
  pose proof (span_body_spec q') as [Hrun _]. rewrite Heq in Hrun.
  cbn. split; [by rewrite Heq0 | split; [done | cbn; lia]].
Qed.

(** The loop only ever appends to [out]. *)
Lemma dedup_loop_app (toks : list str) (seen : gset str) (out : list str) :
  dedup_loop toks seen out = out ++ dedup_loop toks seen [].
Proof.
  revert seen out. induction toks as [|t toks IH]; intros seen out; cbn.
  - by rewrite app_nil_r.
  - case_decide; [done|].
    rewrite (IH _ (out ++ [t])), (IH _ [t]). by rewrite <-app_assoc.
Qed.

Lemma dedup_loop_cons (t : str) (toks : list str) (seen : gset str) :
  dedup_loop (t :: toks) seen [] =
    if decide (lower t ∈ seen) then dedup_loop toks seen []
    else t :: dedup_loop toks ({[lower t]} ∪ seen) [].
Proof. cbn. case_decide; [done|]. by rewrite dedup_loop_app. Qed.

Lemma dedup_loop_sublist (toks : list str) (seen : gset str) :
  sublist (dedup_loop toks seen []) toks.
Proof.
  revert seen. induction toks as [|t toks IH]; intros seen; [done|].
  rewrite dedup_loop_cons. case_decide; [by constructor|].
  by apply sublist_skip.
Qed.





Lemma dedup_loop_shape (m : nat) (toks : list str) (seen : gset str) :
  Forall (token_shape m) toks → Forall (token_shape m) (dedup_loop toks seen []).
Proof.
  rewrite !Forall_forall. intros H t Ht.
  eapply H, elem_of_sublist; [done | apply dedup_loop_sublist].
Qed.

(** C2, as the code has it: every token emitted by the query tokenizer is a
    letter or underscore followed by ONE or more characters drawn from
    letters, digits, underscore, dot, slash and hyphen; an emitted token
    has at least two characters. *)
Theorem tokenize_query_token_shape (q : str) :
  Forall (λ t, token_shape 1 t ∧ (2 ≤ length t)%nat) (_tokenize_query q).
Proof.
  unfold _tokenize_query.
  eapply Forall_impl; [apply Forall_take, dedup_loop_shape, findall_shape|].
  intros [|c rest]; cbn; [done|]. intros (? & ? & ?). repeat split; [done..|lia].
Qed.

(** C2, as the claim states it (two or more characters after the first, so
    at least three in all), fails: the query [ab] yields the token [ab]. *)
Lemma tokenize_query_two_char_token :
  _tokenize_query (py "ab") = [py "ab"]
  ∧ ¬ Forall (λ t, token_shape 2 t ∧ (3 ≤ length t)%nat) (_tokenize_query (py "ab")).
Proof.
  split; [by vm_compute|].
  intros H. apply Forall_inv in H as [_ H]. vm_compute in H. lia.
Qed.


(** A query with repeated and short words. *)
Example tokenize_ex :
  _tokenize_query (py "find Foo.bar and foo.BAR in x/y-z, ab") =
    [py "find"; py "Foo.bar"; py "and"; py "in"; py "x/y-z"; py "ab"].
Proof. vm_compute. reflexivity. Qed.

End Tokenizer.

(** ** Insertion-ordered dictionaries *)

Section Dict.
Context {V : Type}.
Implicit Types (d : list (str * V)) (k : str) (v : V).

Lemma dict_get_set d k k' v def :
  dict_get (dict_set d k v) k' def = if decide (k = k') then v else dict_get d k' def.
Proof.
  induction d as [|[k0 v0] d IH]; cbn.
  - by repeat case_decide.
  - repeat (case_decide; cbn; simplify_eq; try done).
    all: rewrite IH; by case_decide.
Qed.

Lemma dict_get_fresh d k def : k ∉ d.*1 → dict_get d k def = def.
Proof.
  induction d as [|[k0 v0] d IH]; cbn; [done|].
  intros [? ?]%not_elem_of_cons. case_decide; [done | by apply IH].
Qed.



Lemma dict_set_fresh d k v : k ∉ d.*1 → dict_set d k v = d ++ [(k, v)].
Proof.
  induction d as [|[k0 v0] d IH]; cbn; [done|].
  intros [? ?]%not_elem_of_cons. case_decide; [done|]. by rewrite IH.
Qed.

Lemma dict_set_keys_elem d k v k' :
  k' ∈ (dict_set d k v).*1 ↔ k' = k ∨ k' ∈ d.*1.
Proof.
  induction d as [|[k0 v0] d IH]; cbn.
  - rewrite list_elem_of_singleton. set_solver.
  - case_decide; cbn; subst; rewrite !elem_of_cons; [naive_solver|].
    rewrite IH. naive_solver.
Qed.

Lemma dict_set_NoDup d k v : NoDup d.*1 → NoDup (dict_set d k v).*1.
Proof.
  induction d as [|[k0 v0] d IH]; cbn.
  - intros _. apply NoDup_singleton.
  - intros [Hk0 Hnd]%NoDup_cons. case_decide; cbn; subst.
    + by apply NoDup_cons.
    + apply NoDup_cons. split; [|by apply IH].
      rewrite dict_set_keys_elem. naive_solver.
Qed.

End Dict.

(** ** The stable sort by decreasing score *)

Section Sorting.
Context {A : Type}.
Implicit Types (x y : A * Q) (l : list (A * Q)).

Lemma insert_desc_Permutation x l : insert_desc x l ≡ₚ x :: l.
Proof.
  induction l as [|y l IH]; cbn; [done|].
  destruct (Qle_bool y.2 x.2); [done|]. rewrite IH. apply Permutation_swap.
Qed.

Lemma sorted_desc_Permutation l : sorted_desc l ≡ₚ l.
Proof.
  induction l as [|x l IH]; cbn; [done|].
  by rewrite insert_desc_Permutation, IH.
Qed.

Lemma insert_desc_sorted x l :
  StronglySorted by_score_desc l → StronglySorted by_score_desc (insert_desc x l).
Proof.
  induction 1 as [|y l Hl IH Hy]; cbn.
  - by repeat constructor.
  - destruct (Qle_bool y.2 x.2) eqn:Hle.
    + apply Qle_bool_iff in Hle. constructor; [by constructor|].
      constructor; [done|].
      eapply Forall_impl; [exact Hy|]. unfold by_score_desc. intros z Hz.
      by apply Qle_trans with y.2.
    + constructor; [done|]. rewrite insert_desc_Permutation.
      constructor; [|done]. unfold by_score_desc.
      destruct (Qlt_le_dec x.2 y.2) as [Hlt|Hge]; [by apply Qlt_le_weak|].
      apply Qle_bool_iff in Hge. congruence.
Qed.

Lemma sorted_desc_sorted l : StronglySorted by_score_desc (sorted_desc l).
Proof.
  induction l as [|x l IH]; cbn; [constructor | by apply insert_desc_sorted].
Qed.

(** Stability: a list that is already in decreasing order is returned as it
    is, ties included. *)
Lemma sorted_desc_id l : StronglySorted by_score_desc l → sorted_desc l = l.
Proof.
  induction 1 as [|x l Hl IH Hx]; cbn; [done|]. fold (sorted_desc l).
  rewrite IH. destruct Hx as [|y l Hxy _]; cbn; [done|].
  apply Qle_bool_iff in Hxy. by rewrite Hxy.
Qed.

Lemma StronglySorted_lookup {B} (R : relation B) (bs : list B) i j a b :
  StronglySorted R bs → bs !! i = Some a → bs !! j = Some b → (i < j)%nat → R a b.
Proof.
  intros Hl. revert i j. induction Hl as [|z bs Hl IH Hz]; intros i j; [done|].
  destruct i as [|i], j as [|j]; cbn; try lia.
  - intros [= ->] Hb _. rewrite Forall_forall in Hz.
    by eapply Hz, list_elem_of_lookup_2.
  - intros Ha Hb Hij. apply (IH i j); [done..|lia].
Qed.

Lemma StronglySorted_lookup_2 {B} (R : relation B) (bs : list B) :
  (∀ i j a b, bs !! i = Some a → bs !! j = Some b → (i < j)%nat → R a b) →
  StronglySorted R bs.
Proof.
  induction bs as [|z bs IH]; intros H; constructor.
  - apply IH. intros i j a b Ha Hb Hij. apply (H (S i) (S j)); [done..|lia].
  - apply Forall_forall. intros b [j Hj]%list_elem_of_lookup.
    apply (H 0%nat (S j)); [done..|lia].
Qed.

End Sorting.

(** ** Reciprocal-rank fusion *)

Section Fusion.
Implicit Types (leg results dense keyword : list ScoredPoint).
Implicit Types (scores : list (str * Q)) (payloads : gmap str payload).
Implicit Types (pid : str) (k r : Z).

Lemma add_cons k r sp results scores payloads :
  k + r ≠ 0 →
  add k r (sp :: results) scores payloads =
    add k (r + 1) results
      (dict_set scores (pid_of sp)
         (dict_get scores (pid_of sp) 0 + 1 / inject_Z (k + r))%Q)
      (match sp_payload sp with
       | Some p => <[pid_of sp := p]> payloads
       | None => payloads
       end).
Proof. intros Hk. cbn. by case_decide. Qed.

(** [add] raises exactly when some rank cancels [k]. *)
Lemma add_is_Some k r results scores payloads :
  is_Some (add k r results scores payloads) ↔
  ∀ i, (i < length results)%nat → k + r + Z.of_nat i ≠ 0.
Proof.
  revert r scores payloads.
  induction results as [|sp results IH]; intros r scores payloads; cbn.
  - split; [intros _ i; lia | by eexists].
  - case_decide as Hk.
    + split; [by intros [? [=]] | intros H]. specialize (H 0%nat). lia.
    + rewrite IH. split.
      * intros H [|i] Hi; [lia|]. specialize (H i). lia.
      * intros H i Hi. specialize (H (S i)). lia.
Qed.

(** What one pass of [add] does to the two dictionaries. *)
Lemma add_spec k r results scores payloads scores' payloads' :
  add k r results scores payloads = Some (scores', payloads') →
  (∀ pid, dict_get scores' pid 0 == dict_get scores pid 0 + total_from k r results pid)%Q
  ∧ (∀ pid, pid ∈ scores'.*1 ↔ pid ∈ scores.*1 ∨ pid ∈ ids results)
  ∧ (NoDup scores.*1 → NoDup scores'.*1)
  ∧ (∀ pid, payloads' !! pid = last_payload results pid (payloads !! pid)).
Proof.
  revert r scores payloads.
  induction results as [|sp results IH]; intros r scores payloads.
  - cbn. intros [= <- <-]. repeat split; try done.
    + intros pid. ring.
    + by left.
    + intros [?|?%elem_of_nil]; done.
  - intros Hadd. assert (Hk : k + r ≠ 0).
    { intros Hk. cbn in Hadd. by case_decide. }
    rewrite add_cons in Hadd by done.
    apply IH in Hadd as (Hget & Hkeys & Hnd & Hpl).
    split; [|split; [|split]].
    + intros pid. rewrite Hget, dict_get_set. cbn [total_from].
      generalize (1 / inject_Z (k + r))%Q. intros c. case_decide; subst; ring.
    + intros pid. rewrite Hkeys, dict_set_keys_elem. unfold ids.
      rewrite fmap_cons, elem_of_cons. naive_solver.
    + intros H. by apply Hnd, dict_set_NoDup.
    + intros pid. rewrite Hpl. cbn [last_payload].
      f_equal. case_decide as Heq.
      * subst pid. destruct (sp_payload sp); [by rewrite lookup_insert_eq | done].
      * destruct (sp_payload sp); [by rewrite lookup_insert_ne | done].
Qed.

(** *** Ranks *)




(** *** The fused list *)

Lemma _rrf_fuse_spec dense keyword k fused :
  _rrf_fuse dense keyword k = Some fused →
  ∃ scores payloads,
    fused = fused_entry payloads <$> sorted_desc scores
    ∧ NoDup scores.*1
    ∧ (∀ pid, pid ∈ scores.*1 ↔ pid ∈ ids dense ∨ pid ∈ ids keyword)
    ∧ (∀ pid, dict_get scores pid 0 ==
              total_from k 1 dense pid + total_from k 1 keyword pid)%Q
    ∧ (∀ pid, payloads !! pid =
              last_payload keyword pid (last_payload dense pid None))
    ∧ (∀ i, (i < length dense)%nat → k + 1 + Z.of_nat i ≠ 0)
    ∧ (∀ i, (i < length keyword)%nat → k + 1 + Z.of_nat i ≠ 0).
Proof.
  unfold _rrf_fuse. intros H.
  destruct (add k 1 dense [] ∅) as [[scores1 payloads1]|] eqn:H1; [|done].
  cbn in H.
  destruct (add k 1 keyword scores1 payloads1) as [[scores2 payloads2]|] eqn:H2;
    [|done].
  cbn in H. injection H as <-.
  pose proof (proj1 (add_is_Some _ _ _ _ _) (mk_is_Some _ _ H1)) as Hz1.
  pose proof (proj1 (add_is_Some _ _ _ _ _) (mk_is_Some _ _ H2)) as Hz2.
  apply add_spec in H1 as (Hget1 & Hkeys1 & Hnd1 & Hpl1).
  apply add_spec in H2 as (Hget2 & Hkeys2 & Hnd2 & Hpl2).
  exists scores2, payloads2. repeat split; try done.
  - apply Hnd2, Hnd1. constructor.
  - rewrite Hkeys2, Hkeys1. cbn. rewrite elem_of_nil. naive_solver.
  - rewrite Hkeys2, Hkeys1. cbn. rewrite elem_of_nil. naive_solver.
  - intros pid. rewrite Hget2, Hget1. cbn. ring.
  - intros pid. by rewrite Hpl2, Hpl1, lookup_empty.
Qed.


(** *** Reciprocals of integers *)

Lemma recip_lt (a b : Z) :
  a < b → 0 < a ∨ b < 0 → (1 / inject_Z b < 1 / inject_Z a)%Q.
Proof.
  intros Hab Hsign. unfold Qlt, Qdiv, Qmult, Qinv, inject_Z. cbn.
  destruct a as [|a|a], b as [|b|b]; cbn; lia.
Qed.

(** Ranks that cancel nowhere in a leg lie on one side of [-k]. *)
Lemma same_side k (n : nat) (r1 r2 : Z) :
  (∀ i, (i < n)%nat → k + 1 + Z.of_nat i ≠ 0) →
  1 ≤ r1 → r1 < r2 → r2 < 1 + Z.of_nat n →
  0 < k + r1 ∨ k + r2 < 0.
Proof.
  intros Hz H1 H12 H2.
  destruct (decide (0 < k + r1)) as [|Hneg]; [by left|]. right.
  destruct (decide (k + r2 < 0)) as [|Hpos]; [done|]. exfalso.
  apply (Hz (Z.to_nat (- k - 1))); lia.
Qed.

Lemma add_None k r results scores payloads :
  add k r results scores payloads = None →
  ∃ i, (i < length results)%nat ∧ k + r + Z.of_nat i = 0.
Proof.
  revert r scores payloads.
  induction results as [|sp results IH]; intros r scores payloads; cbn; [done|].
  case_decide as Hk.
  - intros _. exists 0%nat. split; lia.
  - intros (i & Hi & Hz)%IH. exists (S i). split; lia.
Qed.

Lemma _rrf_fuse_None dense keyword k :
  _rrf_fuse dense keyword k = None → cancels k dense ∨ cancels k keyword.
Proof.
  unfold _rrf_fuse, cancels.
  destruct (add k 1 dense [] ∅) as [[scores1 payloads1]|] eqn:H1; cbn.
  - destruct (add k 1 keyword scores1 payloads1) as [[scores2 payloads2]|] eqn:H2;
      cbn; [done|].
    intros _. right. by eapply add_None.
  - intros _. left. by eapply add_None.
Qed.

(** With [k >= 0], and so with the default 60, fusion never raises. *)
Lemma _rrf_fuse_total dense keyword k :
  0 ≤ k → is_Some (_rrf_fuse dense keyword k).
Proof.
  intros Hk. destruct (_rrf_fuse dense keyword k) eqn:H; [by eexists|].
  apply _rrf_fuse_None in H as [(i & _ & ?)|(i & _ & ?)]; lia.
Qed.


Lemma fused_sorted dense keyword k fused :
  _rrf_fuse dense keyword k = Some fused → StronglySorted fused_desc fused.
Proof.
  intros H. apply _rrf_fuse_spec in H as (scores & payloads & -> & _).
  pose proof (sorted_desc_sorted scores) as Hs.
  induction Hs as [|[p v] l Hl IH Hx]; cbn; constructor; [done|].
  apply Forall_fmap. eapply Forall_impl; [exact Hx|]. by intros [p' v'].
Qed.



(** In a fresh dictionary a ranking leaves its keys in rank order, each with
    the reciprocal of its rank. *)
Lemma add_fresh k r leg scores payloads scores' payloads' :
  add k r leg scores payloads = Some (scores', payloads') →
  NoDup (ids leg) → (∀ pid, pid ∈ ids leg → pid ∉ scores.*1) →
  scores' = scores ++
    imap (λ i sp, (pid_of sp, (0 + 1 / inject_Z (k + r + Z.of_nat i))%Q)) leg.
Proof.
  revert r scores payloads.
  induction leg as [|sp leg IH]; intros r scores payloads.
  - cbn. intros [= <- <-] _ _. by rewrite app_nil_r.
  - intros Hadd [Hsp Hnd]%NoDup_cons Hfresh.
    assert (Hk : k + r ≠ 0).
    { intros Hk. cbn in Hadd. by case_decide. }
    rewrite add_cons in Hadd by done.
    assert (Hsp' : pid_of sp ∉ scores.*1).
    { apply Hfresh. unfold ids. rewrite fmap_cons. by left. }
    rewrite dict_get_fresh, dict_set_fresh in Hadd by done.
    apply IH in Hadd; [|done|].
    + rewrite Hadd, <-app_assoc. f_equal. rewrite imap_cons. cbn.
      rewrite Z.add_0_r. f_equal. apply imap_ext. intros i sp' _. cbn.
      do 4 f_equal. lia.
    + intros pid Hpid. rewrite fmap_app, elem_of_app. cbn.
      rewrite list_elem_of_singleton. intros [Hin| ->]; [|done].
      revert Hin. apply Hfresh. unfold ids. rewrite fmap_cons. by right.
Qed.

Lemma ranking_scores_sorted k (leg : list ScoredPoint) :
  (∀ i, (i < length leg)%nat → k + 1 + Z.of_nat i ≠ 0) →
  StronglySorted by_score_desc
    (imap (λ i sp, (pid_of sp, (0 + 1 / inject_Z (k + 1 + Z.of_nat i))%Q)) leg).
Proof.
  intros Hz. apply StronglySorted_lookup_2. intros i j a b Ha Hb Hij.
  apply list_lookup_imap_Some in Ha as (spa & Ha & ->).
  apply list_lookup_imap_Some in Hb as (spb & Hb & ->).
  apply lookup_lt_Some in Hb. unfold by_score_desc. cbn.
  apply Qplus_le_r, Qlt_le_weak, recip_lt; [lia|].
  assert (Hside : 0 < k + (1 + Z.of_nat i) ∨ k + (1 + Z.of_nat j) < 0).
  { apply (same_side k (length leg)); [done|lia..]. }
  lia.
Qed.








(** Fusing one ranking with nothing keeps its order. *)
Lemma fuse_single k leg scores payloads :
  ranking leg → add k 1 leg [] ∅ = Some (scores, payloads) →
  (fused_entry payloads <$> sorted_desc scores).*1.*1 = ids leg.
Proof.
  intros Hleg Hadd.
  pose proof (proj1 (add_is_Some _ _ _ _ _) (mk_is_Some _ _ Hadd)) as Hz.
  apply add_fresh in Hadd; [|done|by intros ? _ ?%elem_of_nil].
  cbn in Hadd. subst scores.
  rewrite sorted_desc_id by by apply ranking_scores_sorted.
  rewrite <-!list_fmap_compose, fmap_imap. unfold ids.
  rewrite <-imap_const. by apply imap_ext.
Qed.

Lemma slice_fmap {A B} (f : A → B) (l : list A) (a b : Z) :
  slice (f <$> l) a b = f <$> slice l a b.
Proof. unfold slice. by rewrite length_fmap, fmap_take, fmap_drop. Qed.

(** [l[:b]] for [b >= 0] is the first [b] elements. *)
Lemma slice_from_0 {A} (l : list A) (b : Z) :
  0 ≤ b → slice l 0 b = take (Z.to_nat b) l.
Proof.
  intros Hb. unfold slice, slice_index.
  replace (0 <? 0) with false by done.
  replace (b <? 0) with false by (symmetry; by apply Z.ltb_ge).
  replace (Z.to_nat (Z.min 0 (Z.of_nat (length l)))) with 0%nat by lia.
  rewrite drop_0.
  destruct (decide (b ≤ Z.of_nat (length l))).
  - f_equal. lia.
  - rewrite !take_ge by lia. done.
Qed.

(** C6, as the code has it: when one leg is empty and the other lists every
    record once, the fused list names the records of that leg in that leg's
    order; fusion raises only when some rank equals [-k]. A query without
    tokens gives an empty keyword leg, not an error, and the hybrid search
    then returns the records of the dense leg in the dense order. *)
Theorem rrf_one_empty_leg_keeps_order :
  (∀ k leg,
     ranking leg →
     match _rrf_fuse leg [] k with
     | Some fused => fused.*1.*1 = ids leg
     | None => cancels k leg
     end
     ∧ match _rrf_fuse [] leg k with
       | Some fused => fused.*1.*1 = ids leg
       | None => cancels k leg
       end)
  ∧ (∀ COLLECTION_CODEBASE RRF_K self query limit dense,
       _tokenize_query query = [] →
       search_dense COLLECTION_CODEBASE self query limit = Some dense →
       ranking dense → 0 ≤ RRF_K →
       search_keyword COLLECTION_CODEBASE self query limit = []
       ∧ ∃ out,
           search_hybrid COLLECTION_CODEBASE RRF_K self query limit = Some out
           ∧ (λ pl : payload, pl !! py "_id") <$> out =
               (λ pid, Some (VStr pid)) <$> slice (ids dense) 0 limit).
Proof.
  assert (Hleft : ∀ k leg, ranking leg →
            match _rrf_fuse leg [] k with
            | Some fused => fused.*1.*1 = ids leg
            | None => cancels k leg
            end).
  { intros k leg Hleg. unfold _rrf_fuse.
    destruct (add k 1 leg [] ∅) as [[scores payloads]|] eqn:Hadd; cbn.
    - by apply (fuse_single k).
    - by apply add_None in Hadd. }
  split.
  - intros k leg Hleg. split; [by apply Hleft|].
    unfold _rrf_fuse. cbn.
    destruct (add k 1 leg [] ∅) as [[scores payloads]|] eqn:Hadd; cbn.
    + by apply (fuse_single k).
    + by apply add_None in Hadd.
  - intros COLL RRF_K self query limit dense Htok Hdense Hrank Hk.
    assert (Hkw : search_keyword COLL self query limit = []).
    { unfold search_keyword. by rewrite Htok. }
    split; [done|]. unfold search_hybrid. rewrite Hdense, Hkw. cbn.
    specialize (Hleft RRF_K dense Hrank).
    destruct (_rrf_fuse_total dense [] RRF_K Hk) as [fused Hf].
    rewrite Hf in Hleft |- *. cbn. eexists; split; [done|].
    rewrite <-Hleft, !slice_fmap, <-!list_fmap_compose.
    apply list_fmap_ext. intros _ [[pid sc] pl] _. cbn.
    by rewrite lookup_insert_eq.
Qed.

(** *** Payloads *)






(** *** Instances on the sample records *)

Lemma sample_keyword_ranking : ranking sample_keyword.
Proof. apply (bool_decide_unpack _). by vm_compute. Defined.





(** C6, as the claim states it (for every input with one empty leg), fails
    on a leg that lists a record twice: fusing [B, A, A] with nothing gives
    [A, B], the two ranks of A adding up. *)
Lemma rrf_one_empty_leg_repeated_record :
  ids sample_repeating = [py "B"; py "A"; py "A"]
  ∧ (λ fused : list (str * Q * payload), fused.*1.*1) <$>
      _rrf_fuse sample_repeating [] Config.RRF_K = Some [py "A"; py "B"].
Proof. split; by vm_compute. Qed.

Lemma rrf_one_empty_leg_keeps_order_witness :
  match _rrf_fuse sample_keyword [] 60 with
  | Some fused => fused.*1.*1 = ids sample_keyword
  | None => cancels 60 sample_keyword
  end
  ∧ match _rrf_fuse [] sample_keyword 60 with
    | Some fused => fused.*1.*1 = ids sample_keyword
    | None => cancels 60 sample_keyword
    end.
Proof.
  apply (proj1 rrf_one_empty_leg_keeps_order 60 sample_keyword).
  exact sample_keyword_ranking.
Defined.

(** The same on the handler: the query [??] has no token, the keyword leg is
    empty and the hybrid search lists the dense leg in its order. *)
Example search_hybrid_without_tokens :
  search_keyword (py "codebase_hybrid_v1") sample_handler (py "??") 6 = []
  ∧ (λ pl : payload, pl !! py "_id") <$>
      default [] (search_hybrid (py "codebase_hybrid_v1") Config.RRF_K
                    sample_handler (py "??") 6)
    = [Some (VStr (py "A")); Some (VStr (py "B"))].
Proof. split; by vm_compute. Qed.

(** Fusion at [k = -2] raises on a leg of two or more results. *)
Example rrf_fuse_raises :
  _rrf_fuse sample_dense [] (-2) = None ∧ cancels (-2) sample_dense.
Proof. split; [by vm_compute|]. exists 1%nat. split; cbn; lia. Qed.

End Fusion.

(** ** Line windows of [chunk_by_lines] *)

Section Windows.
Implicit Types (lines : list str) (L O start : Z).

Lemma chunk_loop_unfold lines L O start :
  chunk_loop lines L O start =
    if decide (start < Z.of_nat (length lines)) then
      if decide (Z.min (Z.of_nat (length lines)) (start + L)
                 = Z.of_nat (length lines))
      then [window lines L start]
      else window lines L start
             :: chunk_loop lines L O (start + Z.max 1 (L - O))
    else [].
Proof.
  funelim (chunk_loop lines L O start); simp chunk_loop.
  all: repeat case_decide; try done; try lia.
  all: rewrite ?Heq, ?Heq0; cbn; try done.
Qed.

(** The text of a window is the text of its lines, joined by line feeds. *)
Lemma window_text lines L start :
  1 ≤ L → 0 ≤ start →
  let '(s, e, chunk_text) := window lines L start in
  chunk_text = join nl (take (Z.to_nat (e - s + 1)) (drop (Z.to_nat (s - 1)) lines)).
Proof.
  intros HL Hs. unfold window, slice, slice_index. cbn zeta.
  set (n := Z.of_nat (length lines)).
  set (e := Z.min n (start + L)).
  destruct (start <? 0) eqn:H1; [lia|].
  destruct (e <? 0) eqn:H2; [lia|].
  destruct (decide (start < n)).
  - repeat f_equal; lia.
  - rewrite !drop_ge by lia. by rewrite !take_nil.
Qed.

(** The windows produced from [start] on, for a chunk length [L >= 1] and
    an overlap [0 <= O < L]. *)
Lemma chunk_loop_windows lines L O start :
  1 ≤ L → 0 ≤ O < L → 0 ≤ start < Z.of_nat (length lines) →
  let N := Z.of_nat (length lines) in
  let ws := window_of <$> chunk_loop lines L O start in
  (∃ w ws', ws = w :: ws' ∧ w.1 = start + 1)
  ∧ (∀ x, start + 1 ≤ x ≤ N ↔ ∃ w, w ∈ ws ∧ covers w x)
  ∧ (∃ w, last ws = Some w ∧ w.2 = N)
  ∧ (∀ i w1 w2, ws !! i = Some w1 → ws !! S i = Some w2 →
       shared w1 w2 = O ∧ w1.2 - w1.1 + 1 = L ∧ w2.1 = w1.1 + (L - O))
  ∧ (∀ w, w ∈ ws → 1 ≤ w.1 ≤ w.2 ∧ w.2 ≤ N ∧ w.2 - w.1 + 1 ≤ L).
Proof.
  intros HL HO. cbn zeta.
  remember (Z.to_nat (Z.of_nat (length lines) - start)) as m eqn:Hm.
  revert start Hm. induction m as [m IH] using lt_wf_ind. intros start Hm Hstart.
  rewrite chunk_loop_unfold. rewrite decide_True by lia.
  set (N := Z.of_nat (length lines)) in *.
  case_decide as Hend.
  - (* the window reaches the last line *)
    cbn. unfold window_of, window. cbn. fold N. rewrite Hend.
    split; [by eexists _, _|].
    split.
    { intros x. split.
      - intros Hx. eexists. split; [by left|]. unfold covers. cbn. lia.
      - intros (w & ->%list_elem_of_singleton & Hc). unfold covers in Hc.
        cbn in Hc. lia. }
    split; [by eexists|].
    split; [intros [|i]; done|].
    intros w ->%list_elem_of_singleton. cbn. lia.
  - (* another window follows *)
    replace (Z.max 1 (L - O)) with (L - O) by lia.
    assert (Hnext : 0 ≤ start + (L - O) < N) by lia.
    destruct (IH (Z.to_nat (N - (start + (L - O)))) ltac:(lia)
                (start + (L - O)) eq_refl Hnext)
      as ((w' & ws' & Hws & Hw') & Hcov & (wl & Hlast & Hwl) & Hcons & Hbnd).
    rewrite fmap_cons.
    set (ws := window_of <$> chunk_loop lines L O (start + (L - O))) in *.
    assert (Hw : window_of (window lines L start) = (start + 1, start + L)).
    { unfold window_of, window. cbn. fold N. f_equal. lia. }
    rewrite Hw.
    assert (Hw'2 : start + L < w'.2).
    { destruct (Hbnd w') as (_ & _ & _); [rewrite Hws; by left|].
      destruct ws' as [|w'' ws''].
      - rewrite Hws in Hlast. cbn in Hlast. injection Hlast as <-. lia.
      - destruct (Hcons 0%nat w' w'') as (_ & Hlen & _);
          [by rewrite Hws..|]. lia. }
    split; [by eexists _, _|].
    split.
    { intros x. split.
      - intros Hx. destruct (decide (x ≤ start + L)).
        + eexists. split; [by left|]. unfold covers. cbn. lia.
        + destruct (proj1 (Hcov x) ltac:(lia)) as (w & Hin & Hc).
          exists w. split; [by right | done].
      - intros (w & [->|Hin]%elem_of_cons & Hc).
        + unfold covers in Hc. cbn in Hc. lia.
        + pose proof (proj2 (Hcov x) (ex_intro _ w (conj Hin Hc))). lia. }
    split.
    { exists wl. split; [|done]. rewrite Hws in Hlast |- *. done. }
    split.
    { intros [|i] w1 w2; cbn.
      - intros [= <-]. rewrite Hws. cbn. intros [= <-].
        unfold shared. cbn. lia.
      - apply Hcons. }
    intros w [->|Hin]%elem_of_cons; [cbn; lia|].
    destruct (Hbnd w Hin) as (? & ? & ?). lia.
Qed.

Lemma chunk_loop_elem lines L O start c :
  0 ≤ start → c ∈ chunk_loop lines L O start →
  ∃ start', 0 ≤ start' ∧ c = window lines L start'.
Proof.
  remember (Z.to_nat (Z.of_nat (length lines) - start)) as m eqn:Hm.
  revert start Hm. induction m as [m IH] using lt_wf_ind. intros start Hm Hstart.
  rewrite chunk_loop_unfold. case_decide; [|by intros ?%elem_of_nil].
  case_decide.
  - intros ->%list_elem_of_singleton. by exists start.
  - intros [->|Hin]%elem_of_cons; [by exists start|].
    apply (IH (Z.to_nat (Z.of_nat (length lines) - (start + Z.max 1 (L - O))))
             ltac:(lia) (start + Z.max 1 (L - O)) eq_refl); [lia | done].
Qed.

Lemma splitlines_nonempty (text : str) : text ≠ [] → splitlines text ≠ [].
Proof. destruct text; [done|]. intros _. by simp splitlines. Qed.

(** C7, as the code has it: for a non-empty text of [N] lines, a chunk
    length [L >= 1] and an overlap [0 <= O < L], the windows are 1-based
    inclusive line ranges within [1, N] whose union is exactly [1, N], the
    last window ends at line [N], two consecutive windows share exactly [O]
    lines (the earlier one has [L] lines, the later one starts [L - O] lines
    further), no window has more than [L] lines, and the text of a chunk is
    the text of the lines of its window. *)
Theorem chunk_by_lines_windows_tile (text : str) (L O : Z) :
  text ≠ [] → 1 ≤ L → 0 ≤ O < L →
  let lines := splitlines text in
  let N := Z.of_nat (length lines) in
  let chunks := chunk_by_lines text L O in
  let ws := window_of <$> chunks in
  1 ≤ N
  ∧ (∀ x, 1 ≤ x ≤ N ↔ ∃ w, w ∈ ws ∧ covers w x)
  ∧ (∃ w, last ws = Some w ∧ w.2 = N)
  ∧ (∀ i w1 w2, ws !! i = Some w1 → ws !! S i = Some w2 →
       shared w1 w2 = O ∧ w1.2 - w1.1 + 1 = L ∧ w2.1 = w1.1 + (L - O))
  ∧ (∀ w, w ∈ ws → 1 ≤ w.1 ≤ w.2 ∧ w.2 ≤ N ∧ w.2 - w.1 + 1 ≤ L)
  ∧ (∀ s e t, (s, e, t) ∈ chunks →
       t = join nl (take (Z.to_nat (e - s + 1)) (drop (Z.to_nat (s - 1)) lines))).
Proof.
  intros Htext HL HO. cbn zeta. unfold chunk_by_lines.
  pose proof (splitlines_nonempty text Htext) as Hlines.
  destruct (splitlines text) as [|l lines] eqn:Hsplit; [done|].
  set (ls := l :: lines) in *.
  assert (HN : 0 ≤ 0 < Z.of_nat (length ls)) by (cbn; lia).
  destruct (chunk_loop_windows ls L O 0 HL HO HN)
    as (_ & Hcov & Hlast & Hcons & Hbnd).
  split; [cbn; lia|]. split; [apply Hcov|]. split; [done|].
  split; [done|]. split; [done|].
  intros s e t Hin.
  apply chunk_loop_elem in Hin as (start' & Hstart' & Heq); [|done].
  pose proof (window_text ls L start' HL Hstart') as Ht.
  by rewrite <-Heq in Ht.
Qed.

(** C7, as the claim states it (any overlap [O < L]), fails for a negative
    overlap: with [L = 2] and [O = -1] the loop steps by 3 and line 3 of a
    four-line text lies in no window. *)
Lemma chunk_by_lines_negative_overlap_gap :
  four_lines ≠ [] ∧ 1 ≤ 2 ∧ -1 < 2
  ∧ length (splitlines four_lines) = 4%nat
  ∧ window_of <$> chunk_by_lines four_lines 2 (-1) = [(1, 2); (4, 4)]
  ∧ ¬ ∃ w, w ∈ window_of <$> chunk_by_lines four_lines 2 (-1) ∧ covers w 3.
Proof.
  split; [done|]. split; [lia|]. split; [lia|]. split; [by vm_compute|].
  assert (H : window_of <$> chunk_by_lines four_lines 2 (-1) = [(1, 2); (4, 4)])
    by (by vm_compute).
  split; [done|]. rewrite H. intros (w & Hin & Hc).
  unfold covers in Hc.
  apply elem_of_cons in Hin as [->|Hin]; [cbn in Hc; lia|].
  apply list_elem_of_singleton in Hin as ->. cbn in Hc. lia.
Qed.

Lemma chunk_by_lines_windows_tile_witness :
  let lines := splitlines four_lines in
  let N := Z.of_nat (length lines) in
  let chunks := chunk_by_lines four_lines 2 1 in
  let ws := window_of <$> chunks in
  1 ≤ N
  ∧ (∀ x, 1 ≤ x ≤ N ↔ ∃ w, w ∈ ws ∧ covers w x)
  ∧ (∃ w, last ws = Some w ∧ w.2 = N)
  ∧ (∀ i w1 w2, ws !! i = Some w1 → ws !! S i = Some w2 →
       shared w1 w2 = 1 ∧ w1.2 - w1.1 + 1 = 2 ∧ w2.1 = w1.1 + (2 - 1))
  ∧ (∀ w, w ∈ ws → 1 ≤ w.1 ≤ w.2 ∧ w.2 ≤ N ∧ w.2 - w.1 + 1 ≤ 2)
  ∧ (∀ s e t, (s, e, t) ∈ chunks →
       t = join nl (take (Z.to_nat (e - s + 1)) (drop (Z.to_nat (s - 1)) lines))).
Proof.
  apply (chunk_by_lines_windows_tile four_lines 2 1).
  - discriminate.
  - lia.
  - lia.
Defined.

Example chunk_by_lines_ex :
  window_of <$> chunk_by_lines four_lines 2 1 = [(1, 2); (2, 3); (3, 4)]
  ∧ chunk_by_lines four_lines 3 0
    = [(1, 3, join nl [py "a"; py "b"; py "c"]); (4, 4, py "d")].
Proof. split; by vm_compute. Qed.

End Windows.

(** ** Extraction: [CodeParser.parse] and [run] *)

Section Extractor.
Context {Tree : Type}.
Variable ast_parse : str → Tree + (str * str).
Variable visit : str → str → Tree → list Item * list str * list str.
Variable safe_read_text : str → option str.
Variables CHUNK_LINES CHUNK_OVERLAP : Z.

Local Abbreviation parse := (parse Tree ast_parse visit).
Local Abbreviation file_entry :=
  (file_entry Tree ast_parse visit safe_read_text CHUNK_LINES CHUNK_OVERLAP).
Local Abbreviation file_errors := (file_errors Tree ast_parse visit safe_read_text).
Local Abbreviation run_file :=
  (run_file Tree ast_parse visit safe_read_text CHUNK_LINES CHUNK_OVERLAP).
Local Abbreviation run :=
  (run Tree ast_parse visit safe_read_text CHUNK_LINES CHUNK_OVERLAP).

Lemma dict_lookup_set {V} (d : list (str * V)) k k' v :
  dict_lookup (dict_set d k v) k' =
    if decide (k = k') then Some v else dict_lookup d k'.
Proof.
  induction d as [|[k0 v0] d IH]; cbn.
  - by repeat case_decide.
  - repeat (case_decide; cbn; simplify_eq; try done).
    all: rewrite IH; by case_decide.
Qed.

Lemma run_file_spec parsed errors rel_path :
  run_file (parsed, errors) rel_path =
    (dict_set parsed rel_path (file_entry rel_path), errors ++ file_errors rel_path).
Proof.
  unfold Parser.run_file, Parser.file_entry, Parser.file_errors.
  destruct (safe_read_text rel_path) as [content|]; [|by rewrite app_nil_r].
  destruct (r_syntax_error (parse rel_path content)) as [[|c e]|];
    by rewrite ?app_nil_r.
Qed.

(** After the loop every file of the list has its own entry, whatever the
    other files are, and the errors are those of the files, in order. *)
Lemma run_loop_spec py_files parsed errors :
  let '(parsed', errors') := foldl run_file (parsed, errors) py_files in
  (∀ fp, dict_lookup parsed' fp =
           if decide (fp ∈ py_files) then Some (file_entry fp)
           else dict_lookup parsed fp)
  ∧ errors' = errors ++ (py_files ≫= file_errors).
Proof.
  revert parsed errors.
  induction py_files as [|f files IH]; intros parsed errors; cbn [foldl].
  - split; [|by rewrite app_nil_r]. intros fp. by rewrite decide_False by set_solver.
  - rewrite run_file_spec.
    specialize (IH (dict_set parsed f (file_entry f)) (errors ++ file_errors f)).
    destruct (foldl _ _ files) as [parsed' errors'].
    destruct IH as [IH1 IH2]. split.
    + intros fp. rewrite IH1, dict_lookup_set.
      repeat case_decide; set_solver.
    + rewrite IH2. cbn. by rewrite app_assoc.
Qed.


End Extractor.


(** The document of the sample tree: the failed file keeps its one-line
    chunk, and the two other files are extracted. *)
Example run_sample_tree :
  let doc := run unit sample_ast_parse sample_visit sample_read 200 40
               (py "/repo") [] sample_files in
  syntax_errors doc
    = [(py "b.py", py "SyntaxError: invalid syntax (<unknown>, line 1)")]
  ∧ (λ e : str * FileEntry, (e.1, syntax_error e.2))
      <$> default [] (parsed_code doc)
    = [(py "a.py", None);
       (py "b.py", Some (py "SyntaxError: invalid syntax (<unknown>, line 1)"));
       (py "c.py", Some (py "SKIPPED: unreadable or too large"))]
  ∧ file_chunks <$> dict_lookup (default [] (parsed_code doc)) (py "b.py")
    = Some (Some [file_chunk (py "b.py") (1, 1, py "def (")]).
Proof. cbn zeta. repeat split; by vm_compute. Qed.

(** ** [str.strip] *)

Section Strip.
Implicit Types (s : str).

Lemma lstrip_suffix s : ∃ sp, s = sp ++ lstrip s ∧ Forall (λ c, is_space c) sp.
Proof.
  induction s as [|c s (sp & Hs & Hsp)]; cbn; [by exists []|].
  destruct (is_space c) eqn:Hc; [|by exists []].
  exists (c :: sp). split; [cbn; by rewrite <-Hs|].
  constructor; [by rewrite Hc | done].
Qed.

Lemma lstrip_nil s : lstrip s = [] ↔ Forall (λ c, is_space c) s.
Proof.
  induction s as [|c s IH]; cbn; [done|].
  destruct (is_space c) eqn:Hc.
  - rewrite IH. split; [intros; constructor; [by rewrite Hc | done]|].
    by intros [_ ?]%Forall_cons.
  - split; [done|]. intros [Hc' _]%Forall_cons. by rewrite Hc in Hc'.
Qed.

Lemma lstrip_head s c s' : lstrip s = c :: s' → is_space c = false.
Proof.
  induction s as [|d s IH]; cbn; [done|].
  destruct (is_space d) eqn:Hd; [done|]. by intros [= <- _].
Qed.

Lemma lstrip_id s c s' : s = c :: s' → is_space c = false → lstrip s = s.
Proof. intros -> Hc. cbn. by rewrite Hc. Qed.

Lemma lstrip_idemp s : lstrip (lstrip s) = lstrip s.
Proof.
  destruct (lstrip s) as [|c s'] eqn:Hs; [done|].
  eapply lstrip_id; [done|]. by eapply lstrip_head.
Qed.

Lemma rstrip_prefix s : ∃ sp, s = rstrip s ++ sp ∧ Forall (λ c, is_space c) sp.
Proof.
  unfold rstrip. destruct (lstrip_suffix (rev s)) as (sp & Hs & Hsp).
  exists (rev sp). split; [|by apply Forall_rev].
  rewrite <-rev_app_distr, <-Hs. by rewrite rev_involutive.
Qed.

Lemma rstrip_idemp s : rstrip (rstrip s) = rstrip s.
Proof. unfold rstrip. by rewrite rev_involutive, lstrip_idemp. Qed.

(** A text is blank exactly when stripping leaves nothing. *)
Lemma strip_nil s : strip s = [] ↔ Forall (λ c, is_space c) s.
Proof.
  unfold strip. split.
  - intros H. destruct (rstrip_prefix (lstrip s)) as (sp & Hs & Hsp).
    rewrite H in Hs. cbn in Hs.
    destruct (lstrip_suffix s) as (sp' & Hs' & Hsp').
    rewrite Hs', Hs. by apply Forall_app.
  - intros H. apply lstrip_nil in H. by rewrite H.
Qed.

(** Stripping twice changes nothing more. *)
Lemma strip_idemp s : strip (strip s) = strip s.
Proof.
  unfold strip. set (t := lstrip s).
  assert (Hl : lstrip (rstrip t) = rstrip t).
  { destruct (rstrip t) as [|c r] eqn:Hr; [done|].
    eapply lstrip_id; [done|].
    destruct (rstrip_prefix t) as (sp & Ht & _). rewrite Hr in Ht.
    unfold t in Ht. by eapply lstrip_head. }
  by rewrite Hl, rstrip_idemp.
Qed.

End Strip.

(** ** Ingestion: [run_ingest] *)

Section Ingestion.
Variable db : QdrantHandler.
Variable BATCH_SIZE : Z.
Implicit Types (points : list PointStruct) (item : Item) (items : list Item).

(** What a loop that ran to its end has done, and where a loop that raised
    did so. *)
Lemma for_each_app {A S} (body : S → A → option S) (s : S) (l1 l2 : list A) :
  for_each body s (l1 ++ l2) = for_each body s l1 ≫= λ s', for_each body s' l2.
Proof.
  revert s. induction l1 as [|x l1 IH]; intros s; cbn; [done|].
  destruct (body s x); [by apply IH | done].
Qed.

Lemma for_each_None {A S} (body : S → A → option S) (s : S) (l : list A) :
  for_each body s l = None → ∃ s' x, x ∈ l ∧ body s' x = None.
Proof.
  revert s. induction l as [|x l IH]; intros s; cbn; [done|].
  destruct (body s x) as [s'|] eqn:Hb.
  - intros (s'' & y & Hy & Hn)%IH. exists s'', y. split; [by right | done].
  - intros _. exists s, x. split; [by left | done].
Qed.

Lemma point_payload_code repo_root file_path item code_text :
  point_payload repo_root file_path item code_text !! py "code"
  = Some (VStr code_text).
Proof. by vm_compute. Qed.

(** One item adds one record when its stripped code is not empty, and
    nothing otherwise. *)
Lemma ingest_item_Some repo_root file_path points item points' :
  ingest_item db repo_root file_path points item = Some points' →
  ∃ new, points' = points ++ new
         ∧ stored_code <$> new
           = (λ c, Some (VStr c)) <$> filter (λ c, c ≠ []) [code_of item].
Proof.
  unfold ingest_item. fold (code_of item).
  destruct (code_of item) as [|c code] eqn:Hcode.
  - intros [= <-]. exists []. by rewrite app_nil_r.
  - destruct (_stable_point_id file_path item) as [point_id|]; [|done].
    cbn [mbind option_bind]. intros [= <-]. eexists [_]. split; [done|].
    rewrite filter_cons, decide_True, filter_nil by done.
    cbn [fmap list_fmap]. unfold stored_code. cbn [ps_payload].
    by rewrite point_payload_code.
Qed.

Lemma ingest_items_Some repo_root file_path items points points' :
  for_each (ingest_item db repo_root file_path) points items = Some points' →
  ∃ new, points' = points ++ new
         ∧ stored_code <$> new
           = (λ c, Some (VStr c)) <$> filter (λ c, c ≠ []) (code_of <$> items).
Proof.
  revert points. induction items as [|item items IH]; intros points;
    cbn [for_each].
  - intros [= <-]. exists []. by rewrite app_nil_r.
  - destruct (ingest_item db repo_root file_path points item) as [points1|] eqn:H1;
      [|done].
    apply ingest_item_Some in H1 as (new1 & -> & Hnew1).
    intros (new2 & -> & Hnew2)%IH. exists (new1 ++ new2).
    split; [by rewrite app_assoc|].
    rewrite fmap_app, Hnew1, Hnew2, fmap_cons.
    change (code_of item :: (code_of <$> items))
      with ([code_of item] ++ (code_of <$> items)).
    by rewrite filter_app, fmap_app.
Qed.

Lemma ingest_files_Some repo_root (entries : list (str * FileEntry)) points points' :
  for_each (ingest_file db repo_root) points entries = Some points' →
  ∃ new, points' = points ++ new
         ∧ stored_code <$> new
           = (λ c, Some (VStr c))
               <$> filter (λ c, c ≠ []) (code_of <$> _iter_items entries).
Proof.
  revert points. induction entries as [|[file_path info] entries IH];
    intros points; cbn [for_each].
  - intros [= <-]. exists []. by rewrite app_nil_r.
  - unfold ingest_file at 1.
    destruct (for_each _ points _) as [points1|] eqn:H1; [|done].
    apply ingest_items_Some in H1 as (new1 & -> & Hnew1).
    intros (new2 & -> & Hnew2)%IH. exists (new1 ++ new2).
    split; [by rewrite app_assoc|].
    rewrite fmap_app, Hnew1, Hnew2.
    unfold _iter_items. rewrite bind_cons.
    by rewrite <-fmap_app, <-filter_app, <-fmap_app.
Qed.

Lemma ingest_files_None repo_root (entries : list (str * FileEntry)) points :
  for_each (ingest_file db repo_root) points entries = None →
  ∃ file_path item, item ∈ _iter_items entries
                    ∧ _stable_point_id file_path item = None.
Proof.
  intros (points' & [file_path info] & Hin & Hnone)%for_each_None.
  cbn in Hnone. apply for_each_None in Hnone as (points'' & item & Hitem & Hnone).
  exists file_path, item. split.
  - unfold _iter_items. apply list_elem_of_bind. by exists (file_path, info).
  - unfold ingest_item in Hnone. destruct (strip _); [done|].
    by destruct (_stable_point_id file_path item).
Qed.

(** *** Batches *)

Lemma slice_elem_of {A} (l : list A) (a b : Z) (x : A) : x ∈ slice l a b → x ∈ l.
Proof.
  unfold slice. intros H. by eapply subseteq_drop, subseteq_take.
Qed.

Lemma slice_take_drop {A} (l : list A) (i n : nat) :
  slice l (Z.of_nat i) (Z.of_nat i + Z.of_nat n) = take n (drop i l).
Proof.
  unfold slice, slice_index.
  replace (Z.of_nat i <? 0) with false by (symmetry; apply Z.ltb_ge; lia).
  replace (Z.of_nat i + Z.of_nat n <? 0) with false
    by (symmetry; apply Z.ltb_ge; lia).
  destruct (decide (i ≤ length l)%nat) as [Hi|Hi].
  - replace (Z.to_nat (Z.min (Z.of_nat i) (Z.of_nat (length l)))) with i by lia.
    destruct (decide (i + n ≤ length l)%nat).
    + f_equal. lia.
    + rewrite !take_ge; [done|rewrite length_drop; lia..].
  - rewrite !drop_ge by lia. by rewrite !take_nil.
Qed.

Lemma concat_groups {A} (l : list A) (size m : nat) :
  (length l ≤ m * size)%nat →
  concat ((λ j, take size (drop (j * size) l)) <$> seq 0 m) = l.
Proof.
  revert l. induction m as [|m IH]; intros l Hl.
  - cbn in *. by destruct l; [|cbn in Hl; lia].
  - cbn [seq fmap list_fmap concat]. rewrite <-fmap_S_seq, <-list_fmap_compose.
    change (0 * size)%nat with 0%nat. rewrite drop_0.
    transitivity (take size l ++ drop size l); [|apply take_drop].
    f_equal. rewrite <-(IH (drop size l)); [|rewrite length_drop; lia].
    f_equal. apply list_fmap_ext. intros _ j _. cbn.
    by rewrite drop_drop, (Nat.add_comm size).
Qed.

(** With a positive batch size the batches are the points, cut in order. *)
Lemma _batched_concat {A} (it : list A) (batch_size : Z) :
  0 < batch_size → ∃ batches, _batched it batch_size = Some batches
                               ∧ concat batches = it.
Proof.
  intros Hb. unfold _batched, range.
  rewrite decide_False, decide_True by lia. eexists; split; [done|].
  rewrite Z.sub_0_r. rewrite <-list_fmap_compose.
  set (n := length it). set (size := Z.to_nat batch_size).
  set (m := Z.to_nat ((Z.of_nat n + batch_size - 1) `div` batch_size)).
  transitivity (concat ((λ j, take size (drop (j * size) it)) <$> seq 0 m)).
  - f_equal. apply list_fmap_ext. intros _ j _. cbn.
    replace (0 + Z.of_nat j * batch_size) with (Z.of_nat (j * size)) by lia.
    replace batch_size with (Z.of_nat size) at 1 by lia.
    apply slice_take_drop.
  - apply concat_groups. fold n. unfold m, size.
    assert (Z.of_nat n ≤ (Z.of_nat n + batch_size - 1) `div` batch_size * batch_size);
      [|nia].
    pose proof (Z.div_mod (Z.of_nat n + batch_size - 1) batch_size ltac:(lia)).
    pose proof (Z.mod_pos_bound (Z.of_nat n + batch_size - 1) batch_size Hb).
    lia.
Qed.

Lemma _batched_elem_of {A} (it : list A) (batch_size : Z) batches batch x :
  _batched it batch_size = Some batches → batch ∈ batches → x ∈ batch → x ∈ it.
Proof.
  unfold _batched. destruct (range _ _ _) as [starts|]; [|done].
  intros [= <-] (i & -> & _)%list_elem_of_fmap. apply slice_elem_of.
Qed.

Lemma _batched_None {A} (it : list A) (batch_size : Z) :
  _batched it batch_size = None → batch_size = 0.
Proof.
  unfold _batched, range. by case_decide.
Qed.

(** C10: every item, syntactic unit or file chunk, whose code is missing,
    empty or white space only is skipped, and every record that is upserted
    carries the stripped code of an item whose code is not blank: a code
    that is not empty and that stripping leaves unchanged. With a positive
    batch size the upserted records are, in order, those of the items whose
    code is not blank. (The run raises, before any upsert, only for a batch
    size of zero or for a key that cannot be encoded.) *)
Theorem run_ingest_skips_blank_code (data : option Document) :
  let items := _iter_items (default [] (data ≫= parsed_code)) in
  match run_ingest db BATCH_SIZE data with
  | Some batches =>
      (∀ batch p, batch ∈ batches → p ∈ batch →
         ∃ item code,
           item ∈ items ∧ code = code_of item
           ∧ stored_code p = Some (VStr code) ∧ code ≠ [] ∧ strip code = code
           ∧ ¬ Forall (λ c, is_space c) (default [] (i_code item)))
      ∧ (0 < BATCH_SIZE →
         stored_code <$> concat batches =
           (λ c, Some (VStr c)) <$> filter (λ c, c ≠ []) (code_of <$> items))
  | None =>
      BATCH_SIZE = 0
      ∨ ∃ file_path item, item ∈ items ∧ _stable_point_id file_path item = None
  end.
Proof.
  cbn zeta. unfold run_ingest.
  destruct data as [data|]; [|by split; [intros ? ? ?%elem_of_nil|]].
  cbn [mbind option_bind].
  destruct (default [] (parsed_code data)) as [|e entries] eqn:Hparsed;
    [by split; [intros ? ? ?%elem_of_nil|]|].
  set (parsed := e :: entries) in *.
  destruct (for_each _ [] parsed) as [points|] eqn:Hloop; cbn [mbind option_bind].
  2:{ right. by eapply ingest_files_None. }
  apply ingest_files_Some in Hloop as (new & Hnew & Hcodes).
  cbn in Hnew. subst new.
  assert (Hpoint : ∀ p, p ∈ points →
            ∃ item code,
              item ∈ _iter_items parsed ∧ code = code_of item
              ∧ stored_code p = Some (VStr code) ∧ code ≠ [] ∧ strip code = code
              ∧ ¬ Forall (λ c, is_space c) (default [] (i_code item))).
  { intros p Hp. apply (list_elem_of_fmap_2 stored_code) in Hp.
    rewrite Hcodes in Hp.
    apply list_elem_of_fmap in Hp as (code & Hstored & Hcode).
    apply list_elem_of_filter in Hcode as [Hne Hcode].
    apply list_elem_of_fmap in Hcode as (item & -> & Hitem).
    exists item, (code_of item). repeat split; try done.
    - apply strip_idemp.
    - intros Hblank. apply strip_nil in Hblank. done. }
  destruct (decide (points = [])) as [->|Hne].
  { split; [by intros ? ? ?%elem_of_nil|]. intros _. by rewrite <-Hcodes. }
  assert (Hmatch : match points with [] => Some [] | _ :: _ => _batched points BATCH_SIZE end
                   = _batched points BATCH_SIZE) by (by destruct points).
  rewrite Hmatch. clear Hmatch.
  destruct (_batched points BATCH_SIZE) as [batches|] eqn:Hb.
  - split.
    + intros batch p Hbatch Hp. apply Hpoint. by eapply _batched_elem_of.
    + intros Hpos. destruct (_batched_concat points BATCH_SIZE Hpos)
        as (batches' & Hb' & Hconcat).
      rewrite Hb in Hb'. injection Hb' as <-. by rewrite Hconcat.
  - left. by eapply _batched_None.
Qed.

End Ingestion.

(** The sample document: the unit of blank code gives no record, the two
    other items give one record each, with their stripped code. *)
Example run_ingest_sample :
  (λ p : PointStruct, (ps_id p, stored_code p))
    <$> concat (default [] (run_ingest sample_handler 256 (Some sample_document)))
  = [(py "09dbd369-d064-5860-b6b8-1b018780d299",
      Some (VStr (py "def f(): pass")));
     (py "09dbd369-d064-5860-b6b8-1b018780d299", Some (VStr (py "x = 1")))].
Proof. by vm_compute. Qed.

(** ** Record identifiers: [_stable_point_id] *)

Section Identifier.
Implicit Types (s t : str).





(** *** The identifier is a hash: it cannot tell all keys apart *)


Lemma hex_digit_alphabet (d : N) : (d < 16)%N → hex_digit d ∈ uuid_alphabet.
Proof.
  intros Hd. assert (Hcases : d ∈ (N.of_nat <$> seq 0 16)).
  { apply list_elem_of_fmap. exists (N.to_nat d). split; [lia|].
    apply elem_of_seq. lia. }
  cbn in Hcases. repeat (apply elem_of_cons in Hcases as [->|Hcases];
    [vm_compute; repeat constructor|]).
  by apply elem_of_nil in Hcases.
Qed.

Lemma hex32_alphabet (i : N) :
  length (hex32 i) = 32%nat ∧ Forall (λ c, c ∈ uuid_alphabet) (hex32 i).
Proof.
  unfold hex32. split; [by rewrite length_fmap, length_seq|].
  apply Forall_fmap, Forall_forall. intros j _. cbn.
  apply hex_digit_alphabet. by apply N.mod_lt.
Qed.

(** The text of a UUID has 36 characters, hexadecimal digits and hyphens. *)
Lemma str_of_uuid_word (i : N) : str_of_uuid i ∈ all_words 36 uuid_alphabet.
Proof.
  assert (Hall : ∀ n w, length w = n → Forall (λ c, c ∈ uuid_alphabet) w →
                        w ∈ all_words n uuid_alphabet).
  { induction n as [|n IH]; intros [|c w]; cbn [length]; try done.
    - intros _ _. by left.
    - intros [= Hlen] [Hc Hw]%Forall_cons. cbn [all_words].
      apply list_elem_of_bind. exists c. split; [|done].
      apply list_elem_of_bind. exists w. split; [by left | by apply IH]. }
  destruct (hex32_alphabet i) as [Hlen Halpha].
  assert (Hdash : (45%N : N) ∈ uuid_alphabet) by (vm_compute; repeat constructor).
  apply Hall; unfold str_of_uuid; cbn zeta.
  - rewrite !length_app, !length_take, !length_drop, Hlen. done.
  - repeat first
      [ apply Forall_app; split
      | apply Forall_cons; split; [exact Hdash|]
      | apply Forall_nil
      | apply Forall_take
      | apply Forall_drop
      | exact Halpha
      | exact I ].
Qed.






(** The identifier of a function [f] on lines 1 to 3 of [src/a.py], as
    [uuid.uuid5] computes it. *)
Example point_id_of_sample :
  point_id_of (py "src/a.py") (py "Function") (py "f") (py "src/a.py::f") 1 3
  = Some (py "3e0fbb5b-f36a-50e8-ac8e-61b1d7448f67").
Proof. by vm_compute. Qed.

End Identifier.

(** ** More on the fused list *)

Section FusedList.
Implicit Types (leg results dense keyword : list ScoredPoint).
Implicit Types (scores : list (str * Q)) (payloads : gmap str payload).
Implicit Types (pid : str) (k r : Z).

Lemma stands_before_cons {A} (l : list A) (z x y : A) :
  stands_before (z :: l) x y ↔ (x = z ∧ y ∈ l) ∨ stands_before l x y.
Proof.
  split.
  - intros (i & j & Hij & Hi & Hj). destruct j as [|j]; [lia|]. cbn in Hj.
    destruct i as [|i]; cbn in Hi.
    + left. injection Hi as <-. split; [done|]. by eapply list_elem_of_lookup_2.
    + right. exists i, j. split; [lia | done].
  - intros [[-> [j Hj]%list_elem_of_lookup]|(i & j & Hij & Hi & Hj)].
    + exists 0%nat, (S j). split; [lia | done].
    + exists (S i), (S j). split; [lia | done].
Qed.

Lemma stands_before_elem {A} (l : list A) (x y : A) :
  stands_before l x y → x ∈ l ∧ y ∈ l.
Proof.
  intros (i & j & _ & Hi & Hj). split; by eapply list_elem_of_lookup_2.
Qed.

Lemma stands_before_fmap {A B} (f : A → B) (l : list A) (x y : A) :
  stands_before l x y → stands_before (f <$> l) (f x) (f y).
Proof.
  intros (i & j & Hij & Hi & Hj). exists i, j.
  rewrite !list_lookup_fmap, Hi, Hj. done.
Qed.

(** Insertion passes only entries of a strictly higher score. *)
Lemma insert_desc_stable {A} (z x y : A * Q) (l : list (A * Q)) :
  stands_before (insert_desc z l) x y → (x.2 == y.2)%Q →
  stands_before (z :: l) x y.
Proof.
  induction l as [|w l IH]; cbn; [done|].
  destruct (Qle_bool w.2 z.2) eqn:Hle; [done|].
  intros [[-> Hy]|H]%stands_before_cons Heq.
  - rewrite insert_desc_Permutation in Hy.
    apply elem_of_cons in Hy as [->|Hy].
    + exfalso. assert (Qle_bool w.2 z.2 = true); [|congruence].
      apply Qle_bool_iff. rewrite Heq. apply Qle_refl.
    + apply stands_before_cons. right. apply stands_before_cons. by left.
  - apply IH in H; [|done].
    apply stands_before_cons in H as [[-> Hy]|H].
    + exists 0%nat. apply list_elem_of_lookup in Hy as [j Hj].
      exists (S (S j)). split; [lia | done].
    + apply stands_before_cons. right. apply stands_before_cons. by right.
Qed.

(** The sort is stable: entries of equal score keep their order. *)
Lemma sorted_desc_stable {A} (x y : A * Q) (l : list (A * Q)) :
  stands_before (sorted_desc l) x y → (x.2 == y.2)%Q → stands_before l x y.
Proof.
  induction l as [|z l IH]; cbn; [by intros (i & j & _ & ? & _)|].
  fold (sorted_desc l). intros H Heq. apply insert_desc_stable in H; [|done].
  apply stands_before_cons in H as [[-> Hy]|H]; apply stands_before_cons.
  - left. split; [done|]. by rewrite sorted_desc_Permutation in Hy.
  - right. by apply IH.
Qed.

Lemma dict_set_keys {V} (d : list (str * V)) (key : str) (v : V) :
  (dict_set d key v).*1 = if decide (key ∈ d.*1) then d.*1 else d.*1 ++ [key].
Proof.
  induction d as [|[k0 v0] d IH]; cbn.
  { rewrite decide_False; [done | by intros ?%elem_of_nil]. }
  destruct (decide (k0 = key)) as [->|Hk]; cbn.
  - rewrite decide_True; [done | by left].
  - rewrite IH. destruct (decide (key ∈ d.*1)).
    + rewrite decide_True; [done | by right].
    + rewrite decide_False; [done|]. by intros [?|?]%elem_of_cons.
Qed.

(** The keys of [scores] stand in the order in which [add] first met them. *)
Lemma add_keys k r results scores payloads scores' payloads' :
  add k r results scores payloads = Some (scores', payloads') →
  scores'.*1 =
    foldl (λ keys pid, if decide (pid ∈ keys) then keys else keys ++ [pid])
      scores.*1 (ids results).
Proof.
  revert r scores payloads.
  induction results as [|sp results IH]; intros r scores payloads.
  - cbn. by intros [= <- <-].
  - intros Hadd. assert (Hk : k + r ≠ 0).
    { intros Hk. cbn in Hadd. by case_decide. }
    rewrite add_cons in Hadd by done. apply IH in Hadd. rewrite Hadd.
    cbn [ids fmap list_fmap foldl]. by rewrite dict_set_keys.
Qed.

Lemma first_met_order (l : list str) :
  let keys := foldl (λ keys pid, if decide (pid ∈ keys) then keys else keys ++ [pid])
                [] l in
  (∀ p, p ∈ keys ↔ p ∈ l)
  ∧ ∀ p1 p2, stands_before keys p1 p2 → met_before l p1 p2.
Proof.
  induction l as [|x l IH] using rev_ind; cbn zeta.
  { cbn. split; [done|]. by intros p1 p2 (i & j & _ & ? & _). }
  rewrite foldl_app. cbn [foldl]. cbn zeta in IH.
  set (keys := foldl _ [] l) in *. destruct IH as [Hmem Hord].
  assert (Hlift : ∀ p1 p2, met_before l p1 p2 → met_before (l ++ [x]) p1 p2).
  { intros p1 p2 (l1 & l2 & -> & ? & ?). exists l1, (l2 ++ [x]).
    by rewrite <-app_assoc. }
  case_decide as Hx.
  - split.
    + intros p. rewrite Hmem, elem_of_app, list_elem_of_singleton.
      apply Hmem in Hx. naive_solver.
    + intros p1 p2 H. by apply Hlift, Hord.
  - split.
    + intros p. rewrite !elem_of_app, Hmem. done.
    + intros p1 p2 (i & j & Hij & Hi & Hj).
      destruct (decide (j < length keys)%nat) as [Hlt|Hge].
      * apply Hlift, Hord. exists i, j.
        rewrite lookup_app_l in Hi, Hj by lia. done.
      * rewrite lookup_app_r in Hj by lia.
        destruct (j - length keys)%nat eqn:Hjk; [|by destruct n]. 
        cbn in Hj. injection Hj as <-.
        assert (i < length keys)%nat by lia.
        rewrite lookup_app_l in Hi by lia.
        apply list_elem_of_lookup_2 in Hi as Hp1.
        apply Hmem in Hp1 as Hp1'.
        apply list_elem_of_split in Hp1' as (l1 & l2 & ->).
        exists l1, (l2 ++ [x]). rewrite <-app_assoc. split; [done|].
        split.
        -- intros Hin. apply Hx, Hmem. rewrite elem_of_app. by left.
        -- intros ->. done.
Qed.

Lemma _rrf_fuse_keys dense keyword k fused :
  _rrf_fuse dense keyword k = Some fused →
  ∃ scores payloads,
    fused = fused_entry payloads <$> sorted_desc scores
    ∧ NoDup scores.*1
    ∧ scores.*1 =
        foldl (λ keys pid, if decide (pid ∈ keys) then keys else keys ++ [pid])
          [] (ids dense ++ ids keyword).
Proof.
  intros H.
  destruct (_rrf_fuse_spec _ _ _ _ H) as (scores0 & payloads0 & Hf0 & Hnd0 & _).
  unfold _rrf_fuse in H.
  destruct (add k 1 dense [] ∅) as [[scores1 payloads1]|] eqn:H1; [|done].
  cbn in H.
  destruct (add k 1 keyword scores1 payloads1) as [[scores2 payloads2]|] eqn:H2;
    [|done].
  cbn in H. injection H as <-.
  exists scores2, payloads2. split; [done|].
  apply add_spec in H1 as Hs1. apply add_spec in H2 as Hs2.
  destruct Hs1 as (_ & _ & Hnd1 & _), Hs2 as (_ & _ & Hnd2 & _).
  split; [apply Hnd2, Hnd1; constructor|].
  apply add_keys in H1, H2. rewrite foldl_app, H2, H1. done.
Qed.

Lemma fused_entry_fst payloads (l : list (str * Q)) :
  (fused_entry payloads <$> l).*1 = l.
Proof.
  induction l as [|[p v] l IH]; cbn; [done|]. by rewrite IH.
Qed.

(** The fused list names every record that a leg lists, once. *)
Lemma fused_ids k dense keyword fused :
  _rrf_fuse dense keyword k = Some fused →
  NoDup fused.*1.*1
  ∧ (∀ pid, pid ∈ fused.*1.*1 ↔ pid ∈ ids dense ∨ pid ∈ ids keyword).
Proof.
  intros H.
  apply _rrf_fuse_spec in H as (scores & payloads & -> & Hnd & Hkeys & _).
  rewrite fused_entry_fst.
  assert (Hperm : (sorted_desc scores).*1 ≡ₚ scores.*1)
    by (by rewrite sorted_desc_Permutation).
  split; [by rewrite Hperm|]. intros pid. by rewrite Hperm.
Qed.

(** X2: the fused list names every record that a leg lists, each exactly
    once, and no other record; it is no longer than the two legs together. *)
Theorem rrf_fuse_lists_each_record_once k dense keyword fused :
  _rrf_fuse dense keyword k = Some fused →
  NoDup fused.*1.*1
  ∧ (∀ pid, pid ∈ fused.*1.*1 ↔ pid ∈ ids dense ∨ pid ∈ ids keyword)
  ∧ (length fused ≤ length dense + length keyword)%nat.
Proof.
  intros H. destruct (fused_ids _ _ _ _ H) as [Hnd Hkeys].
  split; [done|]. split; [done|].
  rewrite <-(length_fmap fst fused), <-(length_fmap fst fused.*1).
  rewrite <-(length_fmap pid_of dense), <-(length_fmap pid_of keyword).
  rewrite <-length_app. apply submseteq_length, NoDup_submseteq; [done|].
  intros pid Hin. apply Hkeys in Hin. by rewrite elem_of_app.
Qed.

(** X3: along the fused list scores never increase, and two entries of
    equal score stand in the order in which fusion first met their records,
    the dense leg being read before the keyword leg. *)
Theorem rrf_fuse_sorted_ties_in_first_met_order
    k dense keyword fused (i j : nat) e1 e2 :
  _rrf_fuse dense keyword k = Some fused →
  fused !! i = Some e1 → fused !! j = Some e2 → (i < j)%nat →
  (e2.1.2 <= e1.1.2)%Q
  ∧ ((e1.1.2 == e2.1.2)%Q → met_before (ids dense ++ ids keyword) e1.1.1 e2.1.1).
Proof.
  intros H Hi Hj Hij. split.
  { apply fused_sorted in H.
    apply (StronglySorted_lookup _ _ _ _ _ _ H Hi Hj Hij). }
  intros Heq.
  apply _rrf_fuse_keys in H as (scores & payloads & -> & Hnd & Hkeys).
  apply list_lookup_fmap_Some in Hi as ([p1 s1] & -> & Hi).
  apply list_lookup_fmap_Some in Hj as ([p2 s2] & -> & Hj).
  cbn in *.
  assert (Hb : stands_before scores (p1, s1) (p2, s2)).
  { apply sorted_desc_stable; [|done]. by exists i, j. }
  apply (stands_before_fmap fst) in Hb. cbn in Hb. rewrite Hkeys in Hb.
  by apply first_met_order in Hb.
Qed.








(** X6: for a limit that is not negative the hybrid search returns at most
    [limit] results; each carries a string under ["_id"] and a score under
    ["_hybrid_score"]; the identifiers are pairwise distinct, also when both
    legs return a record, and the scores never increase. *)
Theorem search_hybrid_results_are_distinct_sorted_and_capped
    COLLECTION_CODEBASE RRF_K self query limit out :
  0 ≤ limit →
  search_hybrid COLLECTION_CODEBASE RRF_K self query limit = Some out →
  Z.of_nat (length out) ≤ limit
  ∧ (∃ pids, result_id <$> out = Some <$> pids ∧ NoDup pids)
  ∧ (∃ scs, hybrid_score <$> out = Some <$> scs
            ∧ StronglySorted (λ x y, y <= x)%Q scs).
Proof.
  intros Hlimit. unfold search_hybrid.
  destruct (search_dense _ _ _ _) as [dense|]; [|done]. cbn.
  destruct (_rrf_fuse _ _ _) as [fused|] eqn:Hf; [|done]. cbn.
  intros [= <-]. rewrite slice_from_0 by done.
  set (n := Z.to_nat limit). split; [|split].
  - rewrite length_fmap, length_take. lia.
  - exists (take n fused).*1.*1. split.
    + rewrite <-!list_fmap_compose. apply list_fmap_ext.
      intros _ [[pid sc] pl] _. cbn. unfold result_id.
      by rewrite lookup_insert_eq.
    + rewrite !fmap_take. eapply sublist_NoDup; [|apply sublist_take].
      by destruct (fused_ids _ _ _ _ Hf).
  - exists (take n fused).*1.*2. split.
    + rewrite <-!list_fmap_compose. apply list_fmap_ext.
      intros _ [[pid sc] pl] _. cbn. unfold hybrid_score.
      rewrite lookup_insert_ne by done. by rewrite lookup_insert_eq.
    + apply fused_sorted in Hf. apply StronglySorted_lookup_2.
      intros i j a b Ha Hb Hij.
      rewrite !list_lookup_fmap in Ha, Hb.
      destruct (take n fused !! i) as [ea|] eqn:Hea; [|done].
      destruct (take n fused !! j) as [eb|] eqn:Heb; [|done].
      cbn in Ha, Hb. injection Ha as <-. injection Hb as <-.
      apply lookup_take_Some in Hea as [Hea _], Heb as [Heb _].
      apply (StronglySorted_lookup _ _ _ _ _ _ Hf Hea Heb Hij).
Qed.


End FusedList.

Lemma rrf_fuse_lists_each_record_once_witness :
  let fused := default [] (_rrf_fuse sample_dense sample_keyword 60) in
  NoDup fused.*1.*1
  ∧ (∀ pid, pid ∈ fused.*1.*1 ↔ pid ∈ ids sample_dense ∨ pid ∈ ids sample_keyword)
  ∧ (length fused ≤ length sample_dense + length sample_keyword)%nat.
Proof.
  apply (rrf_fuse_lists_each_record_once 60 sample_dense sample_keyword).
  vm_compute. reflexivity.
Defined.

Lemma rrf_fuse_sorted_ties_in_first_met_order_witness :
  let dense := [sample "A" "dense"] in
  let keyword := [sample "B" "keyword"] in
  ∃ fused e1 e2,
    _rrf_fuse dense keyword 60 = Some fused
    ∧ fused !! 0%nat = Some e1 ∧ fused !! 1%nat = Some e2
    ∧ e1.1.1 = py "A" ∧ e2.1.1 = py "B"
    ∧ (e2.1.2 <= e1.1.2)%Q
    ∧ ((e1.1.2 == e2.1.2)%Q → met_before (ids dense ++ ids keyword) e1.1.1 e2.1.1).
Proof.
  cbn zeta. eexists _, _, _.
  split; [vm_compute; reflexivity|].
  split; [reflexivity|]. split; [reflexivity|].
  split; [reflexivity|]. split; [reflexivity|].
  eapply (rrf_fuse_sorted_ties_in_first_met_order 60
            [sample "A" "dense"] [sample "B" "keyword"] _ 0 1).
  - vm_compute. reflexivity.
  - reflexivity.
  - reflexivity.
  - lia.
Defined.


Lemma search_hybrid_results_are_distinct_sorted_and_capped_witness :
  let out := default [] (search_hybrid (py "codebase_hybrid_v1") 60
                           sample_handler (py "def fuse") 3) in
  Z.of_nat (length out) ≤ 3
  ∧ (∃ pids, result_id <$> out = Some <$> pids ∧ NoDup pids)
  ∧ (∃ scs, hybrid_score <$> out = Some <$> scs
            ∧ StronglySorted (λ x y, y <= x)%Q scs).
Proof.
  apply (search_hybrid_results_are_distinct_sorted_and_capped
           (py "codebase_hybrid_v1") 60 sample_handler (py "def fuse") 3).
  - lia.
  - vm_compute. reflexivity.
Defined.

Section LegScores.
Implicit Types (results dense keyword : list ScoredPoint).

Lemma add_reads_ids_and_payloads k r results results' scores payloads :
  (λ sp, (pid_of sp, sp_payload sp)) <$> results
  = (λ sp, (pid_of sp, sp_payload sp)) <$> results' →
  add k r results scores payloads = add k r results' scores payloads.
Proof.
  revert r results' scores payloads.
  induction results as [|sp results IH]; intros r [|sp' results'] scores payloads;
    try done.
  rewrite !fmap_cons. intros [= Hpid Hpl Hrest]. cbn [add].
  fold (pid_of sp). fold (pid_of sp'). rewrite Hpid, Hpl.
  case_decide; [done|]. by apply IH.
Qed.

(** X24: fusion reads nothing of a leg but, for each entry, the text of its
    identifier and its payload: the scores of the legs, and so the scores
    that the keyword search makes up, have no influence, and an integer
    identifier and a string identifier of the same text are one record. *)
Theorem rrf_fuse_reads_only_ids_and_payloads k dense dense' keyword keyword' :
  (λ sp, (pid_of sp, sp_payload sp)) <$> dense
  = (λ sp, (pid_of sp, sp_payload sp)) <$> dense' →
  (λ sp, (pid_of sp, sp_payload sp)) <$> keyword
  = (λ sp, (pid_of sp, sp_payload sp)) <$> keyword' →
  _rrf_fuse dense keyword k = _rrf_fuse dense' keyword' k.
Proof.
  intros Hd Hk. unfold _rrf_fuse.
  rewrite (add_reads_ids_and_payloads k 1 dense dense') by done.
  destruct (add k 1 dense' [] ∅) as [[scores payloads]|]; [|done]. cbn.
  by rewrite (add_reads_ids_and_payloads k 1 keyword keyword').
Qed.

End LegScores.

Lemma rrf_fuse_reads_only_ids_and_payloads_witness :
  _rrf_fuse [mkScoredPoint (IdInt 7) 0 (1 # 2) None] sample_keyword 60
  = _rrf_fuse [mkScoredPoint (IdStr (py "7")) 3 0 None]
      ((λ sp, mkScoredPoint (sp_id sp) 1 5 (sp_payload sp)) <$> sample_keyword) 60.
Proof.
  apply (rrf_fuse_reads_only_ids_and_payloads 60).
  - vm_compute. reflexivity.
  - vm_compute. reflexivity.
Defined.

(** ** More on the tokenizer *)

Section TokenPieces.

Lemma span_body_rest (s : str) :
  match (span_body s).2 with
  | c :: _ => is_body c = false
  | [] => True
  end.
Proof.
  induction s as [|c s IH]; cbn; [done|].
  destruct (is_body c) eqn:Hc; [|done].
  by destruct (span_body s) as [run rest].
Qed.

(** Every match is a piece of the text that stops where the body characters
    stop. *)
Lemma findall_pieces (q : str) :
  Forall (λ t, ∃ pre post,
            q = pre ++ t ++ post
            ∧ match post with c :: _ => is_body c = false | [] => True end)
    (findall q).
Proof.
  funelim (findall q); simp findall; try done.
  all: try (eapply Forall_impl; [exact H|]; cbn;
            intros t (pre & post & -> & Hpost); by exists (c :: pre), post).
  pose proof (span_body_spec q') as [_ Hq'].
  pose proof (span_body_rest q') as Hrest. rewrite <-Heq.
  constructor.
  - exists [], (span_body q').2. split; [|done]. cbn. by rewrite <-Hq'.
  - eapply Forall_impl; [exact H|]. cbn.
    intros t (pre & post & Hsplit & Hpost).
    exists (c :: (span_body q').1 ++ pre), post. split; [|done].
    rewrite Hq' at 1. rewrite Hsplit. cbn. by rewrite <-app_assoc.
Qed.

Lemma findall_nil (q : str) :
  findall q = [] ↔
  ¬ ∃ pre c d post, q = pre ++ c :: d :: post ∧ is_start c ∧ is_body d.
Proof.
  split.
  - intros Hnil (pre & c & d & post & -> & Hc & Hd). revert Hnil.
    induction pre as [|p pre IH]; cbn.
    + simp findall. cbn. rewrite (Is_true_true_1 _ Hc), (Is_true_true_1 _ Hd).
      destruct (span_body post). by cbn.
    + simp findall. destruct (is_start p); cbn; [|done].
      destruct (span_body (pre ++ c :: d :: post)).1; by cbn.
  - intros Hn. pose proof (findall_pieces q) as Hp.
    pose proof (findall_shape q) as Hs.
    destruct (findall q) as [|t toks]; [done|]. exfalso. apply Hn.
    apply Forall_inv in Hp as (pre & post & -> & _).
    apply Forall_inv in Hs. destruct t as [|c [|d rest]]; cbn in Hs; [done|..].
    + destruct Hs as (_ & _ & ?). lia.
    + destruct Hs as (Hc & Hrest & _). apply Forall_inv in Hrest.
      exists pre, c, d, (rest ++ post). done.
Qed.

Lemma tokenize_query_nil (q : str) : _tokenize_query q = [] ↔ findall q = [].
Proof.
  unfold _tokenize_query. split; [|by intros ->].
  destruct (findall q) as [|t toks]; [done|].
  rewrite dedup_loop_cons, decide_False by set_solver. done.
Qed.

(** X7: every token is a contiguous piece of the query, and it ends at the
    end of the query or just before a character that is no body
    character. *)
Theorem tokenize_query_tokens_are_maximal_pieces (q : str) :
  Forall (λ t, ∃ pre post,
            q = pre ++ t ++ post
            ∧ match post with c :: _ => is_body c = false | [] => True end)
    (_tokenize_query q).
Proof.
  unfold _tokenize_query.
  apply Forall_take. pose proof (findall_pieces q) as H.
  rewrite Forall_forall in H |- *. intros t Ht. apply H.
  eapply elem_of_sublist; [done | apply dedup_loop_sublist].
Qed.

(** X8: the tokenizer returns no token exactly when the query has no start
    character (letter or underscore) immediately followed by a body
    character; the keyword search then returns nothing, whatever the store
    holds. *)
Theorem tokenize_query_empty_exactly_without_a_word (q : str) :
  (_tokenize_query q = [] ↔
   ¬ ∃ pre c d post, q = pre ++ c :: d :: post ∧ is_start c ∧ is_body d)
  ∧ ∀ COLLECTION_CODEBASE self limit,
      _tokenize_query q = [] →
      search_keyword COLLECTION_CODEBASE self q limit = [].
Proof.
  split.
  - by rewrite tokenize_query_nil, findall_nil.
  - intros COLL self limit H. unfold search_keyword. by rewrite H.
Qed.

End TokenPieces.

(** ** The number and the text of the windows *)

Section WindowCount.
Implicit Types (lines : list str) (L O start : Z).

(** The windows from [start] on, for an overlap that is not negative: they
    start every [step] lines and there are as many as it takes to reach the
    last line. *)
Lemma chunk_loop_closed_form lines L O start :
  1 ≤ L → 0 ≤ O → 0 ≤ start < Z.of_nat (length lines) →
  let N := Z.of_nat (length lines) in
  let step := Z.max 1 (L - O) in
  let count :=
    if decide (N ≤ start + L) then 1
    else (N - L - start + step - 1) `div` step + 1 in
  window_of <$> chunk_loop lines L O start =
    (λ i : nat, (start + Z.of_nat i * step + 1,
                 Z.min N (start + Z.of_nat i * step + L)))
      <$> seq 0 (Z.to_nat count).
Proof.
  intros HL HO. cbn zeta.
  remember (Z.to_nat (Z.of_nat (length lines) - start)) as m eqn:Hm.
  revert start Hm. induction m as [m IH] using lt_wf_ind. intros start Hm Hstart.
  rewrite chunk_loop_unfold. rewrite decide_True by lia.
  set (N := Z.of_nat (length lines)) in *.
  assert (Hw : window_of (window lines L start)
               = (start + Z.of_nat 0 * Z.max 1 (L - O) + 1,
                  Z.min N (start + Z.of_nat 0 * Z.max 1 (L - O) + L))).
  { unfold window_of, window. cbn. fold N. f_equal; [lia|]. f_equal. lia. }
  case_decide as Hend.
  - rewrite decide_True by lia. cbn [fmap list_fmap]. by rewrite Hw.
  - rewrite decide_False by lia.
    assert (Hstep : 1 ≤ Z.max 1 (L - O) ≤ L) by lia.
    set (step := Z.max 1 (L - O)) in *.
    assert (Hnext : 0 ≤ start + step < N) by lia.
    rewrite fmap_cons, Hw.
    rewrite (IH (Z.to_nat (N - (start + step))) ltac:(lia)
                (start + step) eq_refl Hnext).
    set (x := N - L - start) in *. assert (Hx : 1 ≤ x) by lia.
    assert (Hdiv : (x + step - 1) `div` step = (x - 1) `div` step + 1).
    { replace (x + step - 1) with ((x - 1) + 1 * step) by lia.
      rewrite Z.div_add by lia. done. }
    assert (Hpos : 0 ≤ (x - 1) `div` step) by (apply Z.div_pos; lia).
    replace (Z.to_nat ((x + step - 1) `div` step + 1))
      with (S (Z.to_nat ((x - 1) `div` step + 1))) by lia.
    cbn [seq fmap list_fmap]. f_equal.
    rewrite <-fmap_S_seq, <-list_fmap_compose.
    assert (Hcount : Z.to_nat (if decide (N ≤ start + step + L) then 1
                               else (N - L - (start + step) + step - 1) `div` step + 1)
                     = Z.to_nat ((x - 1) `div` step + 1)).
    { case_decide as Hc.
      - rewrite Z.div_small by lia. done.
      - f_equal. f_equal. f_equal. lia. }
    rewrite Hcount. apply list_fmap_ext. intros _ i _. cbn.
    f_equal; [lia|]. f_equal. lia.
Qed.

(** X9: a text that is not empty and has at most [chunk_lines] lines gives
    exactly one chunk, for any overlap: lines 1 to [N], with the text of all
    lines joined by line feeds. *)
Theorem chunk_by_lines_short_text_is_one_chunk (text : str) (L O : Z) :
  text ≠ [] → Z.of_nat (length (splitlines text)) ≤ L →
  chunk_by_lines text L O =
    [(1, Z.of_nat (length (splitlines text)), join nl (splitlines text))].
Proof.
  intros Htext HL. unfold chunk_by_lines.
  pose proof (splitlines_nonempty text Htext) as Hlines.
  destruct (splitlines text) as [|l lines] eqn:Hsplit; [done|].
  set (ls := l :: lines) in *.
  assert (HN : 0 < Z.of_nat (length ls)) by (cbn; lia).
  rewrite chunk_loop_unfold, decide_True, decide_True by lia.
  unfold window. cbn zeta. do 3 f_equal; [lia|].
  replace (Z.min (Z.of_nat (length ls)) (0 + L)) with (Z.of_nat (length ls)) by lia.
  rewrite slice_from_0 by lia. by rewrite Nat2Z.id, firstn_all.
Qed.

(** X10: for a chunk length [L >= 1] and any overlap [O >= 0], also one
    that is [L] or more, the windows start every [step = max 1 (L - O)]
    lines: window [i] is [(i * step + 1, min N (i * step + L))], and there
    is one window when [N <= L] and [ceil ((N - L) / step) + 1] windows
    otherwise. *)
Theorem chunk_by_lines_windows_closed_form (text : str) (L O : Z) :
  text ≠ [] → 1 ≤ L → 0 ≤ O →
  let N := Z.of_nat (length (splitlines text)) in
  let step := Z.max 1 (L - O) in
  let count := if decide (N ≤ L) then 1 else (N - L + step - 1) `div` step + 1 in
  window_of <$> chunk_by_lines text L O =
    (λ i : nat, (Z.of_nat i * step + 1, Z.min N (Z.of_nat i * step + L)))
      <$> seq 0 (Z.to_nat count).
Proof.
  intros Htext HL HO. cbn zeta. unfold chunk_by_lines.
  pose proof (splitlines_nonempty text Htext) as Hlines.
  destruct (splitlines text) as [|l lines] eqn:Hsplit; [done|].
  set (ls := l :: lines) in *.
  assert (HN : 0 ≤ 0 < Z.of_nat (length ls)) by (cbn; lia).
  rewrite (chunk_loop_closed_form ls L O 0 HL HO HN).
  rewrite Z.sub_0_r. apply list_fmap_ext. intros _ i _. cbn. done.
Qed.

End WindowCount.

Lemma chunk_by_lines_short_text_is_one_chunk_witness :
  chunk_by_lines four_lines 200 40 =
    [(1, Z.of_nat (length (splitlines four_lines)), join nl (splitlines four_lines))].
Proof.
  apply (chunk_by_lines_short_text_is_one_chunk four_lines 200 40).
  - discriminate.
  - vm_compute. discriminate.
Defined.

Lemma chunk_by_lines_windows_closed_form_witness :
  let N := Z.of_nat (length (splitlines four_lines)) in
  let step := Z.max 1 (2 - 5) in
  let count := if decide (N ≤ 2) then 1 else (N - 2 + step - 1) `div` step + 1 in
  window_of <$> chunk_by_lines four_lines 2 5 =
    (λ i : nat, (Z.of_nat i * step + 1, Z.min N (Z.of_nat i * step + 2)))
      <$> seq 0 (Z.to_nat count).
Proof.
  apply (chunk_by_lines_windows_closed_form four_lines 2 5).
  - discriminate.
  - lia.
  - lia.
Defined.

Example chunk_by_lines_overlap_above_length :
  window_of <$> chunk_by_lines four_lines 2 5 = [(1, 2); (2, 3); (3, 4)].
Proof. by vm_compute. Qed.

Section LinesRoundTrip.
Implicit Types (s line rest : str) (ls : list str).

Lemma read_line_unbroken s : Forall (λ c, is_linebreak c = false) (read_line s).1.
Proof.
  induction s as [|c s IH]; cbn [read_line]; [constructor|].
  destruct (is_linebreak c) eqn:Hc.
  - destruct s as [|d s']; [constructor|].
    destruct ((c =? 13)%N && (d =? 10)%N); constructor.
  - destruct (read_line s) as [line rest]. cbn in *. by constructor.
Qed.

Lemma splitlines_unbroken s :
  Forall (Forall (λ c, is_linebreak c = false)) (splitlines s).
Proof.
  funelim (splitlines s); simp splitlines; constructor; [|done].
  apply read_line_unbroken.
Qed.

Lemma read_line_app line rest :
  Forall (λ c, is_linebreak c = false) line →
  read_line (line ++ nl ++ rest) = (line, rest).
Proof.
  induction 1 as [|c line Hc _ IH]; cbn [app read_line].
  - change (is_linebreak 10) with true. cbn. by destruct rest.
  - rewrite Hc. by rewrite IH.
Qed.

Lemma read_line_whole line :
  Forall (λ c, is_linebreak c = false) line → read_line line = (line, []).
Proof.
  induction 1 as [|c line Hc _ IH]; cbn [read_line]; [done|].
  by rewrite Hc, IH.
Qed.

Lemma splitlines_cons s : s ≠ [] →
  splitlines s = (read_line s).1 :: splitlines (read_line s).2.
Proof. destruct s; [done|]. intros _. by simp splitlines. Qed.

(** Joining lines with line feeds and splitting again gives the lines back,
    but for an empty last line. *)
Lemma splitlines_join ls :
  Forall (Forall (λ c, is_linebreak c = false)) ls →
  splitlines (join nl ls) = without_last_empty ls.
Proof.
  induction 1 as [|line ls Hline Hls IH]; [by simp splitlines|].
  destruct ls as [|line2 ls].
  - cbn [join]. unfold without_last_empty. cbn.
    destruct line as [|c line]; [by simp splitlines|].
    rewrite splitlines_cons, read_line_whole by done. cbn. by simp splitlines.
  - change (join nl (line :: line2 :: ls))
      with (line ++ nl ++ join nl (line2 :: ls)).
    rewrite splitlines_cons by (destruct line; done).
    rewrite read_line_app by done. cbn [fst snd]. rewrite IH.
    unfold without_last_empty. cbn [last length].
    destruct (last (line2 :: ls)) as [[|c l]|] eqn:Hlast; [|done..].
    cbn. by rewrite Nat.sub_0_r.
Qed.

(** X11: for a chunk length [L >= 1], splitting the text of a chunk into
    lines again gives the lines of its window, except that an empty last
    line of the window is lost. *)
Theorem chunk_text_splits_back_into_its_lines (text : str) (L O : Z) :
  1 ≤ L →
  Forall (λ chunk : Z * Z * str,
            let '(s, e, t) := chunk in
            splitlines t =
              without_last_empty
                (take (Z.to_nat (e - s + 1))
                   (drop (Z.to_nat (s - 1)) (splitlines text))))
    (chunk_by_lines text L O).
Proof.
  intros HL. apply Forall_forall. intros [[s e] t] Hin.
  unfold chunk_by_lines in Hin.
  pose proof (splitlines_unbroken text) as Hls.
  destruct (splitlines text) as [|l lines] eqn:Hsplit;
    [by apply elem_of_nil in Hin|].
  set (ls := l :: lines) in *.
  apply chunk_loop_elem in Hin as (start' & Hstart' & Heq); [|done].
  pose proof (window_text ls L start' HL Hstart') as Ht.
  rewrite <-Heq in Ht. rewrite Ht. apply splitlines_join.
  by apply Forall_take, Forall_drop.
Qed.

End LinesRoundTrip.

Lemma chunk_text_splits_back_into_its_lines_witness :
  Forall (λ chunk : Z * Z * str,
            let '(s, e, t) := chunk in
            splitlines t =
              without_last_empty
                (take (Z.to_nat (e - s + 1))
                   (drop (Z.to_nat (s - 1)) (splitlines four_lines))))
    (chunk_by_lines four_lines 2 1).
Proof. apply (chunk_text_splits_back_into_its_lines four_lines 2 1). lia. Defined.

Example chunk_text_loses_an_empty_last_line :
  splitlines (py "a" ++ nl ++ nl ++ py "b") = [py "a"; []; py "b"]
  ∧ chunk_by_lines (py "a" ++ nl ++ nl ++ py "b") 2 0
    = [(1, 2, py "a" ++ nl); (3, 3, py "b")]
  ∧ splitlines (py "a" ++ nl) = [py "a"].
Proof. repeat split; by vm_compute. Qed.

Section Comments.
Implicit Types (raw_lines above block below comments : list str).

Lemma comments_loop_raises raw_lines n comments :
  comments_loop raw_lines n comments = None ↔ (length raw_lines < n)%nat.
Proof.
  revert comments. induction n as [|idx IH]; intros comments; cbn.
  - split; [done | lia].
  - destruct (raw_lines !! idx) as [raw|] eqn:Hraw.
    + apply lookup_lt_Some in Hraw.
      repeat case_match; rewrite ?IH; split; try done; lia.
    + apply lookup_ge_None in Hraw. split; [lia | done].
Qed.

(** X12: [extract_preceding_comments] raises (an index out of range)
    exactly when [lineno] exceeds the number of lines by more than one; for
    [lineno <= 1] it returns the empty list. *)
Theorem extract_preceding_comments_raises_past_the_end raw_lines (lineno : Z) :
  (extract_preceding_comments raw_lines lineno = None ↔
   Z.of_nat (length raw_lines) + 1 < lineno)
  ∧ (lineno ≤ 1 → extract_preceding_comments raw_lines lineno = Some []).
Proof.
  unfold extract_preceding_comments. split.
  - rewrite comments_loop_raises. lia.
  - intros Hl. by replace (Z.to_nat (lineno - 2 + 1)) with 0%nat by lia.
Qed.

(** The scan of a block of comment lines and passed lines that stands above
    line [n + 1] and below a line of code, or at the top of the file. *)
Lemma comments_loop_block above block below comments :
  Forall (λ raw, comment_line raw || passed_line raw) block →
  (above = [] ∨ ∃ above' code, above = above' ++ [code]
                               ∧ comment_line code = false
                               ∧ passed_line code = false) →
  comments_loop (above ++ block ++ below) (length above + length block) comments
  = Some ((comment_text <$> filter (λ raw, comment_line raw) block) ++ comments).
Proof.
  intros Hblock Habove. revert below comments.
  induction block as [|raw block IH] using rev_ind; intros below comments.
  - cbn [length app]. rewrite Nat.add_0_r. cbn.
    destruct Habove as [->|(above' & code & -> & Hc & Hp)]; [done|].
    rewrite length_app. cbn [length]. rewrite Nat.add_1_r. cbn [comments_loop].
    rewrite <-app_assoc. rewrite lookup_app_r by lia.
    rewrite Nat.sub_diag. cbn [app lookup list_lookup].
    unfold comment_line in Hc. unfold passed_line in Hp. by rewrite Hc, Hp.
  - apply Forall_app in Hblock as [Hblock Hraw]. apply Forall_inv in Hraw.
    rewrite length_app. cbn [length]. rewrite Nat.add_1_r, Nat.add_succ_r.
    cbn [comments_loop]. rewrite <-(app_assoc block).
    rewrite lookup_app_r by lia.
    rewrite lookup_app_r by lia.
    replace (length above + length block - length above - length block)%nat
      with 0%nat by lia.
    cbn [app lookup list_lookup].
    rewrite filter_app, fmap_app, filter_cons, filter_nil.
    fold (comment_line raw). fold (passed_line raw).
    destruct (comment_line raw) eqn:Hc.
    + rewrite (IH Hblock). rewrite decide_True by done. cbn.
      by rewrite <-app_assoc.
    + cbn in Hraw. apply Is_true_true_1 in Hraw. rewrite Hraw.
      rewrite (IH Hblock). rewrite decide_False by (by intros []). cbn.
      by rewrite app_nil_r.
Qed.

(** X13: when the lines directly above line [lineno] form a block of
    comment lines, blank lines and lines that start with a triple quote, and
    the block is bounded above by a line of code or by the top of the file,
    the result is the text of the comment lines of the block, top to bottom,
    each without its [#] and stripped; comments above the line of code are
    not collected. *)
Theorem extract_preceding_comments_reads_the_block_above
    above block below (lineno : Z) :
  lineno = Z.of_nat (length above + length block) + 1 →
  Forall (λ raw, comment_line raw || passed_line raw) block →
  (above = [] ∨ ∃ above' code, above = above' ++ [code]
                               ∧ comment_line code = false
                               ∧ passed_line code = false) →
  ∃ comments,
    extract_preceding_comments (above ++ block ++ below) lineno = Some comments
    ∧ comments = comment_text <$> filter (λ raw, comment_line raw) block
    ∧ Forall (λ c, strip c = c) comments.
Proof.
  intros -> Hblock Habove. eexists. split; [|split; [done|]].
  - unfold extract_preceding_comments.
    replace (Z.to_nat (Z.of_nat (length above + length block) + 1 - 2 + 1))
      with (length above + length block)%nat by lia.
    rewrite comments_loop_block by done. by rewrite app_nil_r.
  - apply Forall_fmap, Forall_forall. intros raw _. apply strip_idemp.
Qed.

End Comments.

Lemma extract_preceding_comments_reads_the_block_above_witness :
  ∃ comments,
    extract_preceding_comments
      ([py "x = 1"] ++ [py "# first"; []; py "  # second "] ++ [py "def f():"]) 5
    = Some comments
    ∧ comments = comment_text <$> filter (λ raw, comment_line raw)
                                    [py "# first"; []; py "  # second "]
    ∧ Forall (λ c, strip c = c) comments.
Proof.
  apply (extract_preceding_comments_reads_the_block_above
           [py "x = 1"] [py "# first"; []; py "  # second "] [py "def f():"] 5).
  - reflexivity.
  - repeat (constructor; [by vm_compute|]). constructor.
  - right. exists [], (py "x = 1"). split; [done|]. split; by vm_compute.
Defined.

Example extract_preceding_comments_ex :
  extract_preceding_comments
    [py "x = 1"; py "# first"; []; py "  # second "; py "def f():"] 5
  = Some [py "first"; py "second"]
  ∧ extract_preceding_comments [py "# only"; py "def f():"] 4 = None
  ∧ extract_preceding_comments [py "# only"; py "def f():"] 3
    = Some []
  ∧ extract_preceding_comments [py "# only"; py "def f():"] 0 = Some [].
Proof. repeat split; by vm_compute. Qed.

(** X14: when [ast.unparse] raises, [_safe_unparse] returns the lines
    [start .. end_] of the file joined by line feeds, with
    [start = max 1 lineno] and [end_ = max start end_lineno], whatever the
    two attributes are (missing, zero, negative or reversed): no index wraps
    around. On the lines of a file the text splits back into those lines
    (an empty last line apart), and there are [end_ - start + 1] of them
    when [end_] is within the file. *)
Theorem safe_unparse_falls_back_to_the_lines_of_the_node
    (raw_lines : list str) (lineno end_lineno : option Z) :
  let start := Z.max 1 (default 1 lineno) in
  let end_ := Z.max start (default start end_lineno) in
  let lines := take (Z.to_nat (end_ - start + 1))
                 (drop (Z.to_nat (start - 1)) raw_lines) in
  _safe_unparse None raw_lines lineno end_lineno = join nl lines
  ∧ (Forall (Forall (λ c, is_linebreak c = false)) raw_lines →
     splitlines (_safe_unparse None raw_lines lineno end_lineno)
     = without_last_empty lines)
  ∧ (end_ ≤ Z.of_nat (length raw_lines) →
     Z.of_nat (length lines) = end_ - start + 1).
Proof.
  cbn zeta. unfold _safe_unparse.
  set (start := Z.max 1 (default 1 lineno)).
  set (end_ := Z.max start (default start end_lineno)).
  assert (Hslice : slice raw_lines (start - 1) end_
                   = take (Z.to_nat (end_ - start + 1))
                       (drop (Z.to_nat (start - 1)) raw_lines)).
  { rewrite <-slice_take_drop. f_equal; lia. }
  rewrite Hslice. split; [done|]. split.
  - intros Hraw. apply splitlines_join. by apply Forall_take, Forall_drop.
  - intros Hend. rewrite length_take, length_drop. lia.
Qed.

(** ** The statistics of [run] *)

Lemma dict_lookup_is_Some {V} (d : list (str * V)) k :
  is_Some (dict_lookup d k) ↔ k ∈ d.*1.
Proof.
  induction d as [|[k0 v0] d IH]; cbn.
  - split; [by intros [? ?] | by intros ?%elem_of_nil].
  - case_decide; subst; rewrite elem_of_cons; [by split; [left | eexists]|].
    rewrite IH. naive_solver.
Qed.

Section RunCounts.
Context {Tree : Type}.
Variable ast_parse : str → Tree + (str * str).
Variable visit : str → str → Tree → list Item * list str * list str.
Variable safe_read_text : str → option str.
Variables CHUNK_LINES CHUNK_OVERLAP : Z.

Local Abbreviation parse := (parse Tree ast_parse visit).
Local Abbreviation file_entry :=
  (file_entry Tree ast_parse visit safe_read_text CHUNK_LINES CHUNK_OVERLAP).
Local Abbreviation file_errors := (file_errors Tree ast_parse visit safe_read_text).
Local Abbreviation run_file :=
  (run_file Tree ast_parse visit safe_read_text CHUNK_LINES CHUNK_OVERLAP).
Local Abbreviation run :=
  (run Tree ast_parse visit safe_read_text CHUNK_LINES CHUNK_OVERLAP).
Local Abbreviation fails := (parse_fails ast_parse safe_read_text).

Lemma file_errors_fst rel_path :
  (file_errors rel_path).*1 = if fails rel_path then [rel_path] else [].
Proof.
  unfold Parser.file_errors, parse_fails, Parser.parse.
  destruct (safe_read_text rel_path) as [content|]; [|done].
  destruct (ast_parse content) as [tree|[class_name message]].
  - by destruct (visit rel_path content tree) as [[? ?] ?].
  - cbn. by destruct class_name.
Qed.

Lemma errors_fst (py_files : list str) :
  (py_files ≫= file_errors).*1 = filter (λ fp, fails fp) py_files.
Proof.
  induction py_files as [|fp files IH]; [done|].
  rewrite bind_cons, fmap_app, IH, file_errors_fst, filter_cons.
  destruct (fails fp); by cbn.
Qed.

Lemma run_loop_NoDup py_files parsed errors :
  NoDup parsed.*1 → NoDup (foldl run_file (parsed, errors) py_files).1.*1.
Proof.
  revert parsed errors.
  induction py_files as [|f files IH]; intros parsed errors Hnd; cbn [foldl];
    [done|].
  rewrite run_file_spec. by apply IH, dict_set_NoDup.
Qed.

(** X15: in the document of [run], [num_files] is the number of paths
    given, [num_syntax_errors] the number of those that were read and that
    [ast.parse] rejects (an unreadable file is not counted),
    [syntax_errors] names the first 200 of them in order, and [parsed_code]
    has exactly one entry for every distinct path. *)
Theorem run_counts_files_and_failures (repo_root readme : str)
    (py_files : list str) :
  let doc := run repo_root readme py_files in
  let failed := filter (λ fp, fails fp) py_files in
  num_files doc = Z.of_nat (length py_files)
  ∧ num_syntax_errors doc = Z.of_nat (length failed)
  ∧ (syntax_errors doc).*1 = take 200 failed
  ∧ ∃ parsed,
      parsed_code doc = Some parsed
      ∧ NoDup parsed.*1 ∧ (∀ fp, fp ∈ parsed.*1 ↔ fp ∈ py_files).
Proof.
  cbn zeta. unfold Parser.run.
  pose proof (run_loop_spec ast_parse visit safe_read_text CHUNK_LINES
                CHUNK_OVERLAP py_files [] []) as Hloop.
  pose proof (run_loop_NoDup py_files [] [] (NoDup_nil_2)) as Hnd.
  destruct (foldl run_file ([], []) py_files) as [parsed errors].
  destruct Hloop as [Hlook Herrs]. cbn in Herrs, Hnd. cbn.
  split; [done|]. split; [|split].
  - by rewrite <-errors_fst, length_fmap, Herrs.
  - rewrite slice_from_0 by done. by rewrite fmap_take, Herrs, errors_fst.
  - exists parsed. split; [done|]. split; [done|].
    intros fp. rewrite <-dict_lookup_is_Some, Hlook. cbn.
    case_decide; split; try done; try (by eexists); by intros [? ?].
Qed.

End RunCounts.

Example run_counts_sample_tree :
  let doc := run unit sample_ast_parse sample_visit sample_read 200 40
               (py "/repo") [] (sample_files ++ sample_files) in
  num_files doc = 6 ∧ num_syntax_errors doc = 2
  ∧ (default [] (parsed_code doc)).*1 = sample_files.
Proof. cbn zeta. repeat split; by vm_compute. Qed.

(** ** Batches and upserted records *)

Section Batches.
Context {A : Type}.
Implicit Types (it : list A) (batch_size : Z).

Lemma _batched_lookup it batch_size (i : nat) :
  0 < batch_size →
  ∃ batches, _batched it batch_size = Some batches
    ∧ Z.of_nat (length batches)
      = (Z.of_nat (length it) + batch_size - 1) `div` batch_size
    ∧ ((i < length batches)%nat →
       batches !! i
       = Some (take (Z.to_nat batch_size) (drop (i * Z.to_nat batch_size) it))).
Proof.
  intros Hb. unfold _batched, range.
  rewrite decide_False, decide_True by lia. eexists; split; [done|].
  rewrite Z.sub_0_r, !length_fmap, length_seq.
  assert (0 ≤ (Z.of_nat (length it) + batch_size - 1) `div` batch_size)
    by (apply Z.div_pos; lia).
  split; [lia|]. intros Hi.
  rewrite !list_lookup_fmap, lookup_seq_lt by done. cbn. f_equal.
  rewrite <-(slice_take_drop it (i * Z.to_nat batch_size) (Z.to_nat batch_size)).
  f_equal; lia.
Qed.

(** X16: for a positive batch size, [_batched] cuts the list in order into
    [ceil (n / batch_size)] batches: batch [i] holds the elements from
    position [i * batch_size] on, no batch is empty, and every batch but the
    last has exactly [batch_size] elements. *)
Theorem batched_cuts_full_batches_in_order it batch_size :
  0 < batch_size →
  ∃ batches,
    _batched it batch_size = Some batches
    ∧ concat batches = it
    ∧ Z.of_nat (length batches)
      = (Z.of_nat (length it) + batch_size - 1) `div` batch_size
    ∧ ∀ (i : nat) batch, batches !! i = Some batch →
        batch = take (Z.to_nat batch_size) (drop (i * Z.to_nat batch_size) it)
        ∧ 1 ≤ Z.of_nat (length batch) ≤ batch_size
        ∧ ((S i < length batches)%nat → Z.of_nat (length batch) = batch_size).
Proof.
  intros Hb. destruct (_batched_concat it batch_size Hb) as (batches & Hbs & Hcat).
  exists batches. split; [done|]. split; [done|].
  destruct (_batched_lookup it batch_size 0 Hb) as (batches' & Hbs' & Hlen & _).
  rewrite Hbs in Hbs'. injection Hbs' as <-. split; [done|].
  intros i batch Hi.
  destruct (_batched_lookup it batch_size i Hb) as (batches' & Hbs' & _ & Hlook).
  rewrite Hbs in Hbs'. injection Hbs' as <-.
  apply lookup_lt_Some in Hi as Hlt. rewrite Hlook in Hi by done.
  injection Hi as <-. split; [done|].
  rewrite length_take, length_drop.
  set (n := length it) in *. set (size := Z.to_nat batch_size).
  assert (Hq : Z.of_nat (length batches) * batch_size < Z.of_nat n + batch_size).
  { rewrite Hlen.
    pose proof (Z.div_mod (Z.of_nat n + batch_size - 1) batch_size ltac:(lia)).
    pose proof (Z.mod_pos_bound (Z.of_nat n + batch_size - 1) batch_size Hb).
    lia. }
  assert (Hsz : Z.of_nat size = batch_size) by lia.
  split; [nia|]. intros HS. nia.
Qed.

Lemma _batched_nonpositive it batch_size :
  batch_size ≤ 0 →
  _batched it batch_size = if decide (batch_size = 0) then None else Some [].
Proof.
  intros Hb. unfold _batched, range. case_decide; [done|].
  rewrite decide_False by lia.
  replace (Z.to_nat _) with 0%nat; [done|].
  assert ((0 - Z.of_nat (length it) - batch_size - 1) `div` (- batch_size) ≤ 0);
    [|lia].
  apply Z.lt_succ_r, Z.div_lt_upper_bound; lia.
Qed.

End Batches.

Section Records.
Variable db : QdrantHandler.
Variable BATCH_SIZE : Z.
Implicit Types (points : list PointStruct) (item : Item) (items : list Item).

(** The record built for an item. *)
Lemma ingest_item_origin repo_root file_path points item points' :
  ingest_item db repo_root file_path points item = Some points' →
  points' = points
  ∨ ∃ point_id,
      _stable_point_id file_path item = Some point_id
      ∧ code_of item ≠ []
      ∧ points' = points ++
          [{| ps_id := point_id; ps_vector := embed_query db (code_of item);
              ps_payload := point_payload repo_root file_path item (code_of item) |}].
Proof.
  unfold ingest_item. fold (code_of item).
  destruct (code_of item) as [|c code] eqn:Hcode; [intros [= <-]; by left|].
  destruct (_stable_point_id file_path item) as [point_id|]; [|done].
  cbn [mbind option_bind]. intros [= <-]. right. by exists point_id.
Qed.

Lemma ingest_items_origin repo_root file_path items points points' :
  for_each (ingest_item db repo_root file_path) points items = Some points' →
  ∀ p, p ∈ points' →
    p ∈ points
    ∨ ∃ item point_id,
        item ∈ items ∧ _stable_point_id file_path item = Some point_id
        ∧ code_of item ≠ []
        ∧ p = {| ps_id := point_id; ps_vector := embed_query db (code_of item);
                 ps_payload := point_payload repo_root file_path item (code_of item) |}.
Proof.
  revert points. induction items as [|item items IH]; intros points;
    cbn [for_each].
  - intros [= <-] p Hp. by left.
  - destruct (ingest_item db repo_root file_path points item) as [points1|] eqn:H1;
      [|done].
    intros Hrest p Hp. destruct (IH _ Hrest p Hp) as [Hin|(itm & pid & ? & ? & ? & ?)].
    + apply ingest_item_origin in H1 as [->|(pid & Hid & Hcode & ->)]; [by left|].
      apply elem_of_app in Hin as [?| ->%list_elem_of_singleton]; [by left|].
      right. exists item, pid. split; [by left | done].
    + right. exists itm, pid. split; [by right | done].
Qed.

Lemma ingest_files_origin repo_root (entries : list (str * FileEntry)) points points' :
  for_each (ingest_file db repo_root) points entries = Some points' →
  ∀ p, p ∈ points' →
    p ∈ points
    ∨ ∃ file_path info item point_id,
        (file_path, info) ∈ entries
        ∧ item ∈ default [] (ast_items info) ++ default [] (file_chunks info)
        ∧ _stable_point_id file_path item = Some point_id
        ∧ code_of item ≠ []
        ∧ p = {| ps_id := point_id; ps_vector := embed_query db (code_of item);
                 ps_payload := point_payload repo_root file_path item (code_of item) |}.
Proof.
  revert points. induction entries as [|[file_path info] entries IH];
    intros points; cbn [for_each].
  - intros [= <-] p Hp. by left.
  - unfold ingest_file at 1.
    destruct (for_each _ points _) as [points1|] eqn:H1; [|done].
    intros Hrest p Hp.
    destruct (IH _ Hrest p Hp) as [Hin|(fp & inf & itm & pid & ? & ? & ? & ? & ?)].
    + destruct (ingest_items_origin _ _ _ _ _ H1 p Hin)
        as [?|(itm & pid & ? & ? & ? & ?)]; [by left|].
      right. exists file_path, info, itm, pid. split; [by left | done].
    + right. exists fp, inf, itm, pid. split; [by right | done].
Qed.

(** The records that a run upserts. *)
Lemma run_ingest_origin (data : Document) batches batch p :
  run_ingest db BATCH_SIZE (Some data) = Some batches →
  batch ∈ batches → p ∈ batch →
  ∃ file_path info item point_id,
    (file_path, info) ∈ default [] (parsed_code data)
    ∧ item ∈ default [] (ast_items info) ++ default [] (file_chunks info)
    ∧ _stable_point_id file_path item = Some point_id
    ∧ code_of item ≠ []
    ∧ p = {| ps_id := point_id; ps_vector := embed_query db (code_of item);
             ps_payload := point_payload (default [] (repo_root data)) file_path
                             item (code_of item) |}.
Proof.
  unfold run_ingest.
  destruct (default [] (parsed_code data)) as [|e entries] eqn:Hparsed;
    [by intros [= <-] ?%elem_of_nil|].
  set (parsed := e :: entries) in *.
  destruct (for_each _ [] parsed) as [points|] eqn:Hloop; cbn [mbind option_bind];
    [|done].
  intros Hb Hbatch Hp.
  assert (Hin : p ∈ points).
  { destruct points as [|p0 points0];
      [injection Hb as <-; by apply elem_of_nil in Hbatch|].
    by eapply _batched_elem_of. }
  destruct (ingest_files_origin _ _ _ _ Hloop p Hin) as [?%elem_of_nil|H]; done.
Qed.

Lemma all_words_spec (n : nat) (cs : list N) (w : str) :
  w ∈ all_words n cs → length w = n ∧ Forall (λ c, c ∈ cs) w.
Proof.
  revert w. induction n as [|n IH]; intros w; cbn.
  - by intros ->%list_elem_of_singleton.
  - intros (c & Hw & Hc)%list_elem_of_bind.
    apply list_elem_of_bind in Hw as (w' & ->%list_elem_of_singleton & Hw').
    destruct (IH _ Hw') as [<- Hall]. split; [done | by constructor].
Qed.

Lemma _stable_point_id_shape file_path item point_id :
  _stable_point_id file_path item = Some point_id →
  length point_id = 36%nat ∧ Forall (λ c, c ∈ uuid_alphabet) point_id.
Proof.
  unfold _stable_point_id, uuid5. destruct (utf8 _); [|done].
  intros [= <-]. apply all_words_spec, str_of_uuid_word.
Qed.

Lemma int_or_1_nonzero (x : option Z) : int_or_1 x ≠ 0.
Proof. destruct x as [[| |]|]; done. Qed.

(** X18: every record that a run upserts has as its vector the embedding
    of the code stored in its payload, a payload with exactly the eleven
    keys of the schema, the document's [repo_root], line numbers that are
    stored as integers other than zero, and an identifier of 36 characters
    drawn from the hexadecimal digits and the hyphen. *)
Theorem run_ingest_records_are_well_formed (data : Document) batches :
  run_ingest db BATCH_SIZE (Some data) = Some batches →
  Forall (Forall (λ p,
    (∃ code, stored_code p = Some (VStr code) ∧ ps_vector p = embed_query db code)
    ∧ dom (ps_payload p) = list_to_set payload_keys
    ∧ ps_payload p !! py "repo_root" = Some (VStr (default [] (repo_root data)))
    ∧ (∃ s e, stored_int p (py "start_line") = Some s
              ∧ stored_int p (py "end_line") = Some e ∧ s ≠ 0 ∧ e ≠ 0)
    ∧ length (ps_id p) = 36%nat ∧ Forall (λ c, c ∈ uuid_alphabet) (ps_id p)))
    batches.
Proof.
  intros Hrun. apply Forall_forall. intros batch Hbatch.
  apply Forall_forall. intros p Hp.
  destruct (run_ingest_origin data batches batch p Hrun Hbatch Hp)
    as (file_path & info & item & point_id & _ & _ & Hid & _ & ->).
  cbn [ps_id ps_vector ps_payload]. unfold stored_code, stored_int.
  cbn [ps_payload].
  split; [exists (code_of item); split; [apply point_payload_code | done]|].
  split.
  { unfold point_payload. rewrite dom_list_to_map_L. done. }
  split; [by vm_compute|].
  split.
  { exists (int_or_1 (i_start_line item)), (int_or_1 (i_end_line item)).
    split; [by vm_compute|]. split; [by vm_compute|].
    split; apply int_or_1_nonzero. }
  by eapply _stable_point_id_shape.
Qed.

(** X17: with a batch size that is zero or negative a run upserts
    nothing, also when there are records to upsert: [_batched] gives no batch
    at all for a negative size and raises for a size of zero, and the run
    ends without a batch or raises. *)
Theorem run_ingest_upserts_nothing_unless_batch_size_is_positive
    (data : option Document) :
  BATCH_SIZE ≤ 0 →
  (∀ (it : list PointStruct),
     _batched it BATCH_SIZE = if decide (BATCH_SIZE = 0) then None else Some [])
  ∧ (run_ingest db BATCH_SIZE data = Some []
     ∨ run_ingest db BATCH_SIZE data = None).
Proof.
  intros Hb. split; [intros it; by apply _batched_nonpositive|].
  unfold run_ingest. destruct data as [data|]; [|by left].
  destruct (default [] (parsed_code data)) as [|e entries]; [by left|].
  destruct (for_each _ [] (e :: entries)) as [points|]; cbn [mbind option_bind];
    [|by right].
  destruct points as [|p0 points0]; [by left|].
  rewrite _batched_nonpositive by done. case_decide; [by right | by left].
Qed.

End Records.

Lemma batched_cuts_full_batches_in_order_witness :
  ∃ batches,
    _batched [1; 2; 3; 4; 5] 2 = Some batches
    ∧ concat batches = [1; 2; 3; 4; 5]
    ∧ Z.of_nat (length batches) = (Z.of_nat (length [1; 2; 3; 4; 5]) + 2 - 1) `div` 2
    ∧ ∀ (i : nat) batch, batches !! i = Some batch →
        batch = take (Z.to_nat 2) (drop (i * Z.to_nat 2) [1; 2; 3; 4; 5])
        ∧ 1 ≤ Z.of_nat (length batch) ≤ 2
        ∧ ((S i < length batches)%nat → Z.of_nat (length batch) = 2).
Proof. apply (batched_cuts_full_batches_in_order [1; 2; 3; 4; 5] 2). lia. Defined.

Lemma run_ingest_records_are_well_formed_witness :
  Forall (Forall (λ p,
    (∃ code, stored_code p = Some (VStr code)
             ∧ ps_vector p = embed_query sample_handler code)
    ∧ dom (ps_payload p) = list_to_set payload_keys
    ∧ ps_payload p !! py "repo_root"
      = Some (VStr (default [] (repo_root sample_document)))
    ∧ (∃ s e, stored_int p (py "start_line") = Some s
              ∧ stored_int p (py "end_line") = Some e ∧ s ≠ 0 ∧ e ≠ 0)
    ∧ length (ps_id p) = 36%nat ∧ Forall (λ c, c ∈ uuid_alphabet) (ps_id p)))
    (default [] (run_ingest sample_handler 256 (Some sample_document))).
Proof.
  apply (run_ingest_records_are_well_formed sample_handler 256 sample_document).
  vm_compute. reflexivity.
Defined.

Lemma run_ingest_upserts_nothing_unless_batch_size_is_positive_witness :
  (∀ (it : list PointStruct),
     _batched it (-1) = if decide (-1 = 0) then None else Some [])
  ∧ (run_ingest sample_handler (-1) (Some sample_document) = Some []
     ∨ run_ingest sample_handler (-1) (Some sample_document) = None).
Proof.
  apply (run_ingest_upserts_nothing_unless_batch_size_is_positive
           sample_handler (-1) (Some sample_document)).
  lia.
Defined.

(** The sample document has two records to upsert, and a run with the batch
    size [-1] upserts none of them. *)
Example run_ingest_negative_batch_size :
  length (concat (default [] (run_ingest sample_handler 256 (Some sample_document))))
  = 2%nat
  ∧ run_ingest sample_handler (-1) (Some sample_document) = Some []
  ∧ run_ingest sample_handler 0 (Some sample_document) = None.
Proof. repeat split; by vm_compute. Qed.

Example batched_ex :
  _batched [1; 2; 3; 4; 5] 2 = Some [[1; 2]; [3; 4]; [5]]
  ∧ _batched [1; 2; 3; 4; 5] 0 = None
  ∧ _batched [1; 2; 3; 4; 5] (-2) = Some [].
Proof. repeat split; by vm_compute. Qed.

(** ** From the parser to the store *)

Lemma dict_lookup_elem {V} (d : list (str * V)) k v :
  NoDup d.*1 → (k, v) ∈ d → dict_lookup d k = Some v.
Proof.
  induction d as [|[k0 v0] d IH]; cbn; [by intros _ ?%elem_of_nil|].
  intros [Hk0 Hnd]%NoDup_cons [[= -> ->]|Hin]%elem_of_cons.
  - by rewrite decide_True.
  - rewrite decide_False; [by apply IH|]. intros ->.
    apply Hk0. apply list_elem_of_fmap. by exists (k, v).
Qed.

(** A window of the loop starts at a line of the text. *)
Lemma chunk_loop_elem_start (lines : list str) (L O start : Z) c :
  0 ≤ start → c ∈ chunk_loop lines L O start →
  ∃ start', 0 ≤ start' < Z.of_nat (length lines) ∧ c = window lines L start'.
Proof.
  remember (Z.to_nat (Z.of_nat (length lines) - start)) as m eqn:Hm.
  revert start Hm. induction m as [m IH] using lt_wf_ind. intros start Hm Hstart.
  rewrite chunk_loop_unfold. case_decide; [|by intros ?%elem_of_nil].
  case_decide.
  - intros ->%list_elem_of_singleton. exists start. split; [lia | done].
  - intros [->|Hin]%elem_of_cons; [exists start; split; [lia | done]|].
    apply (IH (Z.to_nat (Z.of_nat (length lines) - (start + Z.max 1 (L - O))))
             ltac:(lia) (start + Z.max 1 (L - O)) eq_refl); [lia | done].
Qed.

Section Pipeline.
Context {Tree : Type}.
Variable ast_parse : str → Tree + (str * str).
Variable visit : str → str → Tree → list Item * list str * list str.
Variable safe_read_text : str → option str.
Variables CHUNK_LINES CHUNK_OVERLAP : Z.
Variable db : QdrantHandler.
Variable BATCH_SIZE : Z.

Local Abbreviation parse := (parse Tree ast_parse visit).
Local Abbreviation file_entry :=
  (file_entry Tree ast_parse visit safe_read_text CHUNK_LINES CHUNK_OVERLAP).
Local Abbreviation run_file :=
  (run_file Tree ast_parse visit safe_read_text CHUNK_LINES CHUNK_OVERLAP).
Local Abbreviation run :=
  (run Tree ast_parse visit safe_read_text CHUNK_LINES CHUNK_OVERLAP).

(** The entries of the document of [run]. *)
Lemma run_entries repo_root readme py_files fp info :
  (fp, info) ∈ default [] (parsed_code (run repo_root readme py_files)) →
  fp ∈ py_files ∧ info = file_entry fp.
Proof.
  unfold Parser.run.
  pose proof (run_loop_spec ast_parse visit safe_read_text CHUNK_LINES
                CHUNK_OVERLAP py_files [] []) as Hloop.
  pose proof (run_loop_NoDup ast_parse visit safe_read_text CHUNK_LINES
                CHUNK_OVERLAP py_files [] [] (NoDup_nil_2)) as Hnd.
  destruct (foldl run_file ([], []) py_files) as [parsed errors].
  destruct Hloop as [Hlook _]. cbn in Hnd |- *. intros Hin.
  apply dict_lookup_elem in Hin; [|done]. rewrite Hlook in Hin. cbn in Hin.
  case_decide; [|done]. by injection Hin as <-.
Qed.

(** X25: when the document written by [run] (for a chunk length of 1 or
    more) is ingested, every record that is upserted comes from a file of
    the list that could be read, carries that file and the repository root
    in its payload, and is either the record of a unit that the visitor found
    in that file or the record of one of its windows: of type [FileChunk],
    with the first and the last line of the window as [start_line] and
    [end_line], and with the stripped text of the window as its code. An
    unreadable file gives no record. *)
Theorem run_then_ingest_gives_records_of_units_and_windows
    (repo_root readme : str) (py_files : list str) batches :
  1 ≤ CHUNK_LINES →
  run_ingest db BATCH_SIZE (Some (run repo_root readme py_files)) = Some batches →
  Forall (Forall (λ p,
    ∃ fp content,
      fp ∈ py_files ∧ safe_read_text fp = Some content
      ∧ ps_payload p !! py "file" = Some (VStr fp)
      ∧ ps_payload p !! py "repo_root" = Some (VStr repo_root)
      ∧ ((∃ item, item ∈ r_items (parse fp content)
                  ∧ stored_code p = Some (VStr (code_of item)))
         ∨ (∃ s e t,
              (s, e, t) ∈ chunk_by_lines content CHUNK_LINES CHUNK_OVERLAP
              ∧ 1 ≤ s ≤ e
              ∧ ps_payload p !! py "type" = Some (VStr (py "FileChunk"))
              ∧ stored_int p (py "start_line") = Some s
              ∧ stored_int p (py "end_line") = Some e
              ∧ stored_code p = Some (VStr (strip t))))))
    batches.
Proof.
  intros HL Hrun. apply Forall_forall. intros batch Hbatch.
  apply Forall_forall. intros p Hp.
  destruct (run_ingest_origin db BATCH_SIZE _ batches batch p Hrun Hbatch Hp)
    as (fp & info & item & point_id & Hentry & Hitem & _ & _ & ->).
  apply run_entries in Hentry as [Hfp ->].
  unfold Parser.file_entry in Hitem.
  destruct (safe_read_text fp) as [content|] eqn:Hread;
    [|by apply elem_of_nil in Hitem].
  exists fp, content. split; [done|]. split; [done|].
  assert (Hrepo : default [] (Artifact.repo_root (run repo_root readme py_files))
                  = repo_root).
  { unfold Parser.run. by destruct (foldl _ _ _). }
  rewrite Hrepo. unfold stored_code, stored_int. cbn [ps_payload].
  split; [by vm_compute|]. split; [by vm_compute|].
  cbn [read_entry ast_items file_chunks default] in Hitem.
  apply elem_of_app in Hitem as [Hitem|Hitem].
  - left. exists item. split; [done|]. apply point_payload_code.
  - right. apply list_elem_of_fmap in Hitem as ([[s e] t] & -> & Hchunk).
    exists s, e, t. split; [done|].
    assert (Hse : 1 ≤ s ≤ e).
    { unfold chunk_by_lines in Hchunk.
      destruct (splitlines content) as [|l lines]; [by apply elem_of_nil in Hchunk|].
      apply chunk_loop_elem_start in Hchunk as (start' & Hstart' & Heq); [|done].
      unfold window in Heq. cbn zeta in Heq.
      set (N := Z.of_nat (length (l :: lines))) in *.
      injection Heq as Hs He _. lia. }
    split; [done|]. split; [by vm_compute|].
    assert (Hint : ∀ z, z ≠ 0 → int_or_1 (Some z) = z) by (by intros [| |]).
    split; [|split].
    + transitivity (Some (int_or_1 (Some s))); [by vm_compute|].
      rewrite Hint by lia. done.
    + transitivity (Some (int_or_1 (Some e))); [by vm_compute|].
      rewrite Hint by lia. done.
    + apply point_payload_code.
Qed.

End Pipeline.

Lemma run_then_ingest_gives_records_of_units_and_windows_witness :
  Forall (Forall (λ p,
    ∃ fp content,
      fp ∈ sample_files ∧ sample_read fp = Some content
      ∧ ps_payload p !! py "file" = Some (VStr fp)
      ∧ ps_payload p !! py "repo_root" = Some (VStr (py "/repo"))
      ∧ ((∃ item, item ∈ r_items (parse unit sample_ast_parse sample_visit fp content)
                  ∧ stored_code p = Some (VStr (code_of item)))
         ∨ (∃ s e t,
              (s, e, t) ∈ chunk_by_lines content 200 40
              ∧ 1 ≤ s ≤ e
              ∧ ps_payload p !! py "type" = Some (VStr (py "FileChunk"))
              ∧ stored_int p (py "start_line") = Some s
              ∧ stored_int p (py "end_line") = Some e
              ∧ stored_code p = Some (VStr (strip t))))))
    (default []
       (run_ingest sample_handler 256
          (Some (run unit sample_ast_parse sample_visit sample_read 200 40
                   (py "/repo") [] sample_files)))).
Proof.
  apply (run_then_ingest_gives_records_of_units_and_windows
           sample_ast_parse sample_visit sample_read 200 40 sample_handler 256
           (py "/repo") [] sample_files).
  - lia.
  - vm_compute. reflexivity.
Defined.

(** The two readable files of the sample tree give one chunk record each. *)
Example run_then_ingest_sample_tree :
  (λ p : PointStruct, (ps_payload p !! py "file", stored_code p))
    <$> concat (default []
                  (run_ingest sample_handler 256
                     (Some (run unit sample_ast_parse sample_visit sample_read
                              200 40 (py "/repo") [] sample_files))))
  = [(Some (VStr (py "a.py")), Some (VStr (py "ok")));
     (Some (VStr (py "b.py")), Some (VStr (py "def (")))].
Proof. by vm_compute. Qed.

(** ** Recommendations: [recommend_next_steps] *)

Section Recommendations.
Implicit Types (c : Chunk) (chunks picks : list Chunk) (limit : Z).
Implicit Types (seen : gset str) (recs : list str) (n : nat).

Lemma recommend_loop_picked chunks limit seen recs :
  recommend_loop chunks limit seen recs =
    recs ++ ((λ c, rec_line (file_of c) (name_of c))
               <$> picked chunks limit seen (length recs)).
Proof.
  revert seen recs. induction chunks as [|c chunks IH]; intros seen recs; cbn.
  - by rewrite app_nil_r.
  - fold (file_of c). fold (name_of c).
    destruct (decide (file_of c = [] ∨ file_of c ∈ seen)); [by apply IH|].
    rewrite length_app. cbn [length]. rewrite Nat.add_1_r.
    destruct (decide (limit ≤ Z.of_nat (S (length recs)))); [done|].
    rewrite IH, length_app. cbn [length]. rewrite Nat.add_1_r.
    cbn. by rewrite <-app_assoc.
Qed.

Lemma picked_sublist chunks limit seen n : sublist (picked chunks limit seen n) chunks.
Proof.
  revert seen n. induction chunks as [|c chunks IH]; intros seen n; cbn; [done|].
  repeat case_decide.
  - by apply sublist_cons.
  - apply sublist_skip, sublist_nil_l.
  - by apply sublist_skip.
Qed.

Lemma picked_fresh chunks limit seen n c :
  c ∈ picked chunks limit seen n → file_of c ≠ [] ∧ file_of c ∉ seen.
Proof.
  revert seen n. induction chunks as [|c' chunks IH]; intros seen n; cbn;
    [by intros ?%elem_of_nil|].
  repeat case_decide.
  - apply IH.
  - intros ->%list_elem_of_singleton. tauto.
  - intros [->|Hin]%elem_of_cons; [tauto|]. apply IH in Hin. set_solver.
Qed.

Lemma picked_NoDup chunks limit seen n :
  NoDup (file_of <$> picked chunks limit seen n).
Proof.
  revert seen n. induction chunks as [|c chunks IH]; intros seen n; cbn;
    [constructor|].
  repeat case_decide; [apply IH | apply NoDup_singleton|].
  rewrite fmap_cons. constructor; [|apply IH].
  intros (c' & Heq & Hin)%list_elem_of_fmap. apply picked_fresh in Hin.
  set_solver.
Qed.

Lemma picked_length chunks limit seen n :
  Z.of_nat (n + length (picked chunks limit seen n)) ≤ Z.max (Z.of_nat n + 1) limit
  ∧ (n + length (picked chunks limit seen n) ≤ n + length chunks)%nat.
Proof.
  revert seen n. induction chunks as [|c chunks IH]; intros seen n; cbn;
    [lia|].
  repeat case_decide.
  - destruct (IH seen n). lia.
  - cbn. lia.
  - cbn [length]. destruct (IH ({[file_of c]} ∪ seen) (S n)). lia.
Qed.

(** Below the limit no file is left out. *)
Lemma picked_complete chunks limit seen n c :
  Z.of_nat (n + length (picked chunks limit seen n)) < limit →
  c ∈ chunks → file_of c ≠ [] →
  file_of c ∈ seen ∨ file_of c ∈ file_of <$> picked chunks limit seen n.
Proof.
  revert seen n. induction chunks as [|c' chunks IH]; intros seen n; cbn;
    [by intros _ ?%elem_of_nil|].
  repeat case_decide.
  - intros Hlen [->|Hin]%elem_of_cons Hf; [tauto | by apply IH].
  - cbn. lia.
  - cbn [length]. intros Hlen [->|Hin]%elem_of_cons Hf.
    + right. rewrite fmap_cons. by left.
    + destruct (IH ({[file_of c']} ∪ seen) (S n) ltac:(lia) Hin Hf) as [Hs|Hp].
      * apply elem_of_union in Hs as [->%elem_of_singleton|Hs]; [|by left].
        right. rewrite fmap_cons. by left.
      * right. rewrite fmap_cons. by right.
Qed.

(** A picked chunk is the first chunk of its file. *)
Lemma picked_first chunks limit seen n (i : nat) c :
  picked chunks limit seen n !! i = Some c →
  ∃ j, chunks !! j = Some c ∧
       ∀ j' c', (j' < j)%nat → chunks !! j' = Some c' → file_of c' ≠ file_of c.
Proof.
  revert seen n i. induction chunks as [|c0 chunks IH]; intros seen n i; cbn;
    [done|].
  assert (Hstep : ∀ seen' n' i',
            picked chunks limit seen' n' !! i' = Some c →
            (file_of c0 = [] ∨ file_of c0 ∈ seen') →
            ∃ j, (c0 :: chunks) !! j = Some c ∧
                 ∀ j' c', (j' < j)%nat → (c0 :: chunks) !! j' = Some c' →
                          file_of c' ≠ file_of c).
  { intros seen' n' i' Hi Hc0. destruct (IH _ _ _ Hi) as (j & Hj & Hfirst).
    exists (S j). split; [done|].
    intros [|j'] c' Hlt Hc'; cbn in Hc'.
    - injection Hc' as <-. intros Heq.
      apply list_elem_of_lookup_2, picked_fresh in Hi. rewrite <-Heq in Hi.
      tauto.
    - apply (Hfirst j'); [lia | done]. }
  repeat case_decide.
  - intros Hi. by eapply Hstep.
  - destruct i as [|i]; [|done]. cbn. intros [= ->].
    exists 0%nat. split; [done|]. intros; lia.
  - destruct i as [|i]; cbn.
    + intros [= ->]. exists 0%nat. split; [done|]. intros; lia.
    + intros Hi. eapply Hstep; [done|]. right. set_solver.
Qed.

Lemma picked_nonempty chunks limit seen n c :
  c ∈ chunks → file_of c ≠ [] → file_of c ∉ seen →
  picked chunks limit seen n ≠ [].
Proof.
  revert n. induction chunks as [|c' chunks IH]; intros n; cbn;
    [by intros ?%elem_of_nil|].
  repeat case_decide; try done.
  intros [->|Hin]%elem_of_cons Hf Hs; [tauto | by apply IH].
Qed.

Lemma by_hybrid_score_Permutation chunks : by_hybrid_score chunks ≡ₚ chunks.
Proof.
  unfold by_hybrid_score. rewrite sorted_desc_Permutation.
  rewrite <-list_fmap_compose. by rewrite list_fmap_id.
Qed.

Lemma by_hybrid_score_sorted chunks :
  StronglySorted
    (λ c1 c2, (default 0 (c_hybrid_score c2) <= default 0 (c_hybrid_score c1))%Q)
    (by_hybrid_score chunks).
Proof.
  unfold by_hybrid_score.
  set (dec := (λ x : Chunk, (x, default 0%Q (c_hybrid_score x))) <$> chunks).
  assert (Hdec : Forall (λ e : Chunk * Q, e.2 = default 0%Q (c_hybrid_score e.1))
                   (sorted_desc dec)).
  { rewrite sorted_desc_Permutation. unfold dec. by apply Forall_fmap, Forall_true. }
  pose proof (sorted_desc_sorted dec) as Hs.
  induction Hs as [|[c v] l Hl IH Hx]; cbn; constructor.
  - apply IH. by apply Forall_inv_tail in Hdec.
  - apply Forall_cons in Hdec as [Hv Hdec]. cbn in Hv. subst v.
    apply Forall_fmap. rewrite Forall_forall in Hx, Hdec |- *.
    intros [c' v'] Hin. specialize (Hx _ Hin). specialize (Hdec _ Hin).
    unfold by_score_desc in Hx. cbn in *. by subst v'.
Qed.

(** Chunks of equal score are considered in the order of the input. *)
Lemma by_hybrid_score_stable chunks c1 c2 :
  stands_before (by_hybrid_score chunks) c1 c2 →
  (default 0 (c_hybrid_score c1) == default 0 (c_hybrid_score c2))%Q →
  stands_before chunks c1 c2.
Proof.
  unfold by_hybrid_score.
  set (dec := (λ x : Chunk, (x, default 0%Q (c_hybrid_score x))) <$> chunks).
  intros (i & j & Hij & Hi & Hj) Heq.
  assert (Hdec : ∀ k c, (sorted_desc dec).*1 !! k = Some c →
            sorted_desc dec !! k = Some (c, default 0%Q (c_hybrid_score c))).
  { intros k c Hk. apply list_lookup_fmap_Some in Hk as ([c' v] & Hc & Hk).
    cbn in Hc. subst c'. rewrite Hk. do 2 f_equal.
    apply list_elem_of_lookup_2 in Hk. rewrite sorted_desc_Permutation in Hk.
    apply list_elem_of_fmap in Hk as (c' & [= -> ->] & _). done. }
  apply Hdec in Hi, Hj.
  assert (Hb : stands_before dec (c1, default 0%Q (c_hybrid_score c1))
                 (c2, default 0%Q (c_hybrid_score c2))).
  { apply sorted_desc_stable; [by exists i, j | done]. }
  apply (stands_before_fmap fst) in Hb. unfold dec in Hb.
  rewrite <-list_fmap_compose, list_fmap_id in Hb. done.
Qed.

(** X19: [recommend_next_steps] considers the chunks by decreasing hybrid
    score (a missing score counts as 0, chunks of equal score keep the order
    of the input) and writes one line per chunk it picks: the picked chunks follow that order, have pairwise distinct files
    that are not empty, each is the first chunk of its file, so that the
    name shown is that of the best-scored chunk of the file; there are at
    most [max 1 limit] lines, and when there are fewer than [limit] every
    file of the input that is not empty is named. *)
Theorem recommend_next_steps_names_each_file_once chunks limit :
  let considered := by_hybrid_score chunks in
  considered ≡ₚ chunks
  ∧ StronglySorted
      (λ c1 c2, (default 0 (c_hybrid_score c2) <= default 0 (c_hybrid_score c1))%Q)
      considered
  ∧ (∀ c1 c2,
       stands_before considered c1 c2 →
       (default 0 (c_hybrid_score c1) == default 0 (c_hybrid_score c2))%Q →
       stands_before chunks c1 c2)
  ∧ ∃ picks,
      recommend_next_steps chunks limit
      = (λ c, rec_line (file_of c) (name_of c)) <$> picks
      ∧ sublist picks considered
      ∧ NoDup (file_of <$> picks)
      ∧ Forall (λ c, file_of c ≠ []) picks
      ∧ Z.of_nat (length picks) ≤ Z.max 1 limit
      ∧ (Z.of_nat (length picks) < limit →
         ∀ c, c ∈ chunks → file_of c ≠ [] → file_of c ∈ file_of <$> picks)
      ∧ (∀ (i : nat) c, picks !! i = Some c →
           ∃ j, considered !! j = Some c ∧
                ∀ j' c', (j' < j)%nat → considered !! j' = Some c' →
                         file_of c' ≠ file_of c).
Proof.
  cbn zeta. split; [apply by_hybrid_score_Permutation|].
  split; [apply by_hybrid_score_sorted|].
  split; [apply by_hybrid_score_stable|].
  exists (picked (by_hybrid_score chunks) limit ∅ 0).
  split.
  { unfold recommend_next_steps. destruct chunks as [|c0 chunks0]; [done|].
    by rewrite recommend_loop_picked. }
  split; [apply picked_sublist|]. split; [apply picked_NoDup|].
  split.
  { apply Forall_forall. intros c Hc. by apply picked_fresh in Hc as [? _]. }
  split.
  { pose proof (picked_length (by_hybrid_score chunks) limit ∅ 0). lia. }
  split.
  { intros Hlen c Hc Hf.
    rewrite <-by_hybrid_score_Permutation in Hc.
    destruct (picked_complete (by_hybrid_score chunks) limit ∅ 0 c) as [Hs|Hp];
      [lia|done|done|set_solver|done]. }
  intros i c. apply picked_first.
Qed.

(** X20: the limit is tested after a line is appended, so for any limit
    of 1 or less, zero and negative limits included, exactly one line is
    returned as soon as some chunk has a file. *)
Theorem recommend_next_steps_gives_one_line_for_any_small_limit chunks limit c :
  limit ≤ 1 → c ∈ chunks → file_of c ≠ [] →
  length (recommend_next_steps chunks limit) = 1%nat.
Proof.
  intros Hlimit Hc Hf. unfold recommend_next_steps.
  destruct chunks as [|c0 chunks0]; [by apply elem_of_nil in Hc|].
  set (chunks := c0 :: chunks0) in *.
  rewrite recommend_loop_picked. cbn [app length]. rewrite length_fmap.
  pose proof (picked_length (by_hybrid_score chunks) limit ∅ 0) as [Hle _].
  assert (Hne : picked (by_hybrid_score chunks) limit ∅ 0 ≠ []).
  { apply (picked_nonempty _ _ _ _ c); [|done|set_solver].
    by rewrite by_hybrid_score_Permutation. }
  destruct (picked _ _ _ _) as [|p [|p' ps]]; [done|done|]. cbn in Hle. lia.
Qed.

End Recommendations.

Section RetrievalOrder.

Lemma chunk_of_hybrid_score (pl : payload) c :
  chunk_of pl = Some c →
  c_hybrid_score c = (match pl !! py "_hybrid_score" with
                      | Some (VFloat x) => Some x
                      | _ => None
                      end).
Proof.
  unfold chunk_of, float_field. intros H.
  repeat (case_match; try done); by simplify_eq.
Qed.

Lemma slice_sorted {B} (R : relation B) (l : list B) (a b : Z) :
  StronglySorted R l → StronglySorted R (slice l a b).
Proof.
  intros Hl. apply StronglySorted_lookup_2. intros i j x y Hi Hj Hij.
  unfold slice in Hi, Hj.
  apply lookup_take_Some in Hi as [Hi _], Hj as [Hj _].
  rewrite lookup_drop in Hi, Hj.
  eapply (StronglySorted_lookup R l); [done..|lia].
Qed.

(** The sort of a list that is already in decreasing order of score. *)
Lemma by_hybrid_score_id (chunks : list Chunk) :
  StronglySorted
    (λ c1 c2, (default 0 (c_hybrid_score c2) <= default 0 (c_hybrid_score c1))%Q)
    chunks →
  by_hybrid_score chunks = chunks.
Proof.
  intros Hs. unfold by_hybrid_score. rewrite sorted_desc_id.
  - rewrite <-list_fmap_compose. by rewrite list_fmap_id.
  - induction Hs as [|c l Hl IH Hc]; cbn; constructor; [done|].
    apply Forall_fmap. eapply Forall_impl; [exact Hc|]. by intros c'.
Qed.

(** X21: on the results of a hybrid search the sort of
    [recommend_next_steps] changes nothing, the results being in decreasing
    order of score already: the recommendations follow the retrieval
    order. *)
Theorem recommend_next_steps_follows_the_retrieval_order
    COLLECTION_CODEBASE RRF_K self query limit out chunks n :
  search_hybrid COLLECTION_CODEBASE RRF_K self query limit = Some out →
  Forall2 (λ pl c, chunk_of pl = Some c) out chunks →
  by_hybrid_score chunks = chunks
  ∧ ∃ picks,
      recommend_next_steps chunks n
      = (λ c, rec_line (file_of c) (name_of c)) <$> picks
      ∧ sublist picks chunks.
Proof.
  intros Hsearch Hview.
  assert (Hid : by_hybrid_score chunks = chunks).
  { apply by_hybrid_score_id.
    unfold search_hybrid in Hsearch.
    destruct (search_dense _ _ _ _) as [dense|]; [|done]. cbn in Hsearch.
    destruct (_rrf_fuse _ _ _) as [fused|] eqn:Hf; [|done]. cbn in Hsearch.
    injection Hsearch as <-.
    apply fused_sorted in Hf. apply (slice_sorted _ _ 0 limit) in Hf.
    apply StronglySorted_lookup_2. intros i j ci cj Hi Hj Hij.
    destruct (Forall2_lookup_r _ _ _ _ _ Hview Hi) as (pli & Hpli & Hci).
    destruct (Forall2_lookup_r _ _ _ _ _ Hview Hj) as (plj & Hplj & Hcj).
    apply list_lookup_fmap_Some in Hpli as ([[pi si] pyi] & -> & Hei).
    apply list_lookup_fmap_Some in Hplj as ([[pj sj] pyj] & -> & Hej).
    apply chunk_of_hybrid_score in Hci, Hcj.
    rewrite lookup_insert_ne, lookup_insert_eq in Hci by done.
    rewrite lookup_insert_ne, lookup_insert_eq in Hcj by done.
    rewrite Hci, Hcj. cbn.
    apply (StronglySorted_lookup _ _ _ _ _ _ Hf Hei Hej Hij). }
  split; [done|].
  exists (picked chunks n ∅ 0). split; [|apply picked_sublist].
  unfold recommend_next_steps. destruct chunks as [|c0 chunks0]; [done|].
  by rewrite Hid, recommend_loop_picked.
Qed.

End RetrievalOrder.

Section PromptContext.
Variables MAX_CODE_CHARS_PER_CHUNK MAX_TOTAL_CONTEXT_CHARS : Z.
Implicit Types (c : Chunk) (chunks : list Chunk) (parts : list str).

Local Abbreviation block_of := (block_of MAX_CODE_CHARS_PER_CHUNK).
Local Abbreviation context_loop :=
  (context_loop MAX_CODE_CHARS_PER_CHUNK MAX_TOTAL_CONTEXT_CHARS).
Local Abbreviation _build_context :=
  (_build_context MAX_CODE_CHARS_PER_CHUNK MAX_TOTAL_CONTEXT_CHARS).

Lemma total_length_app parts1 parts2 :
  total_length (parts1 ++ parts2) = total_length parts1 + total_length parts2.
Proof. unfold total_length. rewrite sum_list_with_app. lia. Qed.

Lemma join_length (sep : str) parts :
  Z.of_nat (length (join sep parts)) =
    total_length parts
    + Z.of_nat (length sep) * Z.of_nat (length parts - 1).
Proof.
  unfold total_length.
  induction parts as [|p [|p' parts] IH]; [cbn; lia|cbn; lia|].
  change (join sep (p :: p' :: parts)) with (p ++ sep ++ join sep (p' :: parts)).
  rewrite !length_app, !Nat2Z.inj_add, IH. cbn [sum_list_with length]. lia.
Qed.

(** The loop keeps the blocks of the chunks one after the other and stops
    at the first block that does not fit. *)
Lemma context_loop_prefix chunks parts :
  ∃ k : nat,
    (k ≤ length chunks)%nat
    ∧ context_loop chunks parts (total_length parts)
      = parts ++ (block_of <$> take k chunks)
    ∧ ((0 < k)%nat →
       total_length parts + total_length (block_of <$> take k chunks)
       ≤ MAX_TOTAL_CONTEXT_CHARS)
    ∧ ((k < length chunks)%nat →
       MAX_TOTAL_CONTEXT_CHARS
       < total_length parts + total_length (block_of <$> take (S k) chunks)).
Proof.
  revert parts. induction chunks as [|c chunks IH]; intros parts.
  { exists 0%nat. cbn. rewrite app_nil_r. repeat split; try done; lia. }
  cbn [Chat.context_loop]. case_decide as Hfit.
  - exists 0%nat. cbn [take fmap list_fmap]. rewrite app_nil_r.
    split; [cbn; lia|]. split; [done|]. split; [lia|]. intros _.
    rewrite take_0. unfold total_length in *.
    cbn [fmap list_fmap sum_list_with]. lia.
  - assert (Htot : total_length parts + Z.of_nat (length (block_of c))
                   = total_length (parts ++ [block_of c])).
    { rewrite total_length_app. unfold total_length.
      cbn [sum_list_with]. lia. }
    rewrite Htot. destruct (IH (parts ++ [block_of c])) as (k & Hk & Hloop & Hle & Hgt).
    exists (S k). split; [cbn; lia|]. split.
    { rewrite Hloop. cbn [take fmap list_fmap]. by rewrite <-app_assoc. }
    assert (Hcons : ∀ m, total_length parts
                         + total_length (block_of <$> take (S m) (c :: chunks))
                         = total_length (parts ++ [block_of c])
                           + total_length (block_of <$> take m chunks)).
    { intros m. cbn [take fmap list_fmap].
      change (block_of c :: (block_of <$> take m chunks))
        with ([block_of c] ++ (block_of <$> take m chunks)).
      rewrite !total_length_app. lia. }
    split.
    + intros _. rewrite Hcons. destruct k as [|k].
      * rewrite take_0. unfold total_length in *.
        cbn [fmap list_fmap sum_list_with]. lia.
      * apply Hle. lia.
    + intros Hlt. rewrite Hcons. apply Hgt. cbn in Hlt. lia.
Qed.

(** X22: [_build_context] joins, with a blank line, the blocks of the
    longest prefix of the chunks whose block lengths add up to at most
    [MAX_TOTAL_CONTEXT_CHARS]: it stops at the first block that does not
    fit, and a later, shorter block is not considered. The separators are not
    counted: the context is [2 * (k - 1)] characters longer than its [k]
    blocks. *)
Theorem build_context_keeps_the_longest_prefix_that_fits chunks :
  ∃ k : nat,
    (k ≤ length chunks)%nat
    ∧ _build_context chunks = join (nl ++ nl) (block_of <$> take k chunks)
    ∧ ((0 < k)%nat →
       total_length (block_of <$> take k chunks) ≤ MAX_TOTAL_CONTEXT_CHARS)
    ∧ ((k < length chunks)%nat →
       MAX_TOTAL_CONTEXT_CHARS < total_length (block_of <$> take (S k) chunks))
    ∧ Z.of_nat (length (_build_context chunks))
      = total_length (block_of <$> take k chunks) + 2 * Z.of_nat (k - 1).
Proof.
  destruct (context_loop_prefix chunks []) as (k & Hk & Hloop & Hle & Hgt).
  change (total_length []) with 0 in *. cbn [app] in Hloop.
  exists k. unfold Chat._build_context. rewrite Hloop.
  split; [done|]. split; [done|]. split; [intros ?; apply Hle; lia|].
  split; [intros ?; specialize (Hgt ltac:(done)); lia|].
  rewrite join_length, length_fmap, length_take. cbn [length nl app].
  replace (k `min` length chunks)%nat with k by lia. lia.
Qed.

End PromptContext.

(** X23: the memory text of the prompt has at most 803 characters for
    each memory: 800 of its text, the dash and the space, and the line
    feed. *)
Theorem build_memory_is_bounded (mem_items : list Memory) :
  Z.of_nat (length (_build_memory mem_items))
  ≤ 803 * Z.of_nat (length mem_items).
Proof.
  unfold _build_memory. destruct mem_items as [|m0 items0]; [done|].
  set (items := m0 :: items0).
  rewrite join_length, length_fmap. cbn [length nl].
  assert (H : total_length ((λ m, py "- " ++ slice (default [] (m_text m)) 0 800)
                              <$> items) ≤ 802 * Z.of_nat (length items)).
  { unfold total_length. clearbody items. induction items as [|m items IH]; [done|].
    cbn [fmap list_fmap sum_list_with length].
    rewrite length_app, slice_from_0, length_take by done.
    change (length (py "- ")) with 2%nat. lia. }
  lia.
Qed.

Lemma recommend_next_steps_gives_one_line_for_any_small_limit_witness :
  length (recommend_next_steps
            [sample_chunk "a.py" "a.py::f" (1 # 61);
             sample_chunk "b.py" "b.py::g" (1 # 62)] 0) = 1%nat.
Proof.
  apply (recommend_next_steps_gives_one_line_for_any_small_limit _ 0
           (sample_chunk "b.py" "b.py::g" (1 # 62))).
  - lia.
  - right. left.
  - discriminate.
Defined.

Lemma recommend_next_steps_follows_the_retrieval_order_witness :
  let chunks := omap chunk_of
                  (default [] (search_hybrid (py "codebase_hybrid_v1") 60
                                 sample_code_handler (py "def f") 6)) in
  by_hybrid_score chunks = chunks
  ∧ ∃ picks,
      recommend_next_steps chunks 5
      = (λ c, rec_line (file_of c) (name_of c)) <$> picks
      ∧ sublist picks chunks.
Proof.
  eapply (recommend_next_steps_follows_the_retrieval_order
            (py "codebase_hybrid_v1") 60 sample_code_handler (py "def f") 6).
  - vm_compute. reflexivity.
  - vm_compute. repeat (constructor; [reflexivity|]). constructor.
Defined.

Example recommend_next_steps_ex :
  recommend_next_steps
    [sample_chunk "a.py" "a.py::f" (1 # 62);
     sample_chunk "b.py" "b.py::g" (1 # 63);
     sample_chunk "a.py" "a.py::h" (1 # 61)] 5
  = [py "- Inspect `a.py` (related: `a.py::h`)";
     py "- Inspect `b.py` (related: `b.py::g`)"]
  ∧ recommend_next_steps
      (omap chunk_of
         (default [] (search_hybrid (py "codebase_hybrid_v1") 60
                        sample_code_handler (py "def f") 6))) 5
    = [py "- Inspect `a.py` (related: `a.py::f`)";
       py "- Inspect `b.py` (related: `b.py::g`)"].
Proof. split; by vm_compute. Qed.

(** Two blocks of 37 characters fit a budget of 74, and the context then has
    76 characters: the blank line between blocks is not counted. *)
Example build_context_ex :
  _build_context 1800 74
    [mkChunk None None None None None None;
     mkChunk None None None None None None]
  = py "[unknown:?-?]  unknown" ++ nl ++ py "```python" ++ nl ++ nl ++ py "```"
    ++ nl ++ nl
    ++ py "[unknown:?-?]  unknown" ++ nl ++ py "```python" ++ nl ++ nl ++ py "```"
  ∧ length (_build_context 1800 74
              [mkChunk None None None None None None;
               mkChunk None None None None None None]) = 76%nat
  ∧ _build_context 1800 73
      [mkChunk None None None None None None;
       mkChunk None None None None None None]
    = py "[unknown:?-?]  unknown" ++ nl ++ py "```python" ++ nl ++ nl ++ py "```".
Proof. repeat split; by vm_compute. Qed.
